(** * Inventory service (src/main.py): a shallow embedding and its properties

    The service is a set of FastAPI handlers over a Redis database.  The
    handlers are embedded as computations in a small state-and-exception
    monad over a model of the three kinds of Redis keys the program uses:

      - [item_ids]          the counter bumped by [INCR item_ids];
      - [item_name_to_id]   the hash from item name to item id;
      - [item_id:{id}]      one hash per item, with the fields
                            [item_id], [item_name] and [quantity].

    Modelling choices, all on the side of the store (which is not part of
    the repository):
      - the fields of an item hash are typed ([Z] for the two integer
        fields, [string] for the name) instead of being raw strings, since
        the program only ever writes integers into the integer fields and
        reads them back with [int(...)];
      - integers are [Z], as Python's [int] is; the store keeps whatever
        integer [HSET] is given, but [HINCRBY] works on signed 64-bit
        integers and refuses anything else, which is modelled; a refusal
        reaches the client as an exception that no handler catches, so
        the request is answered with status 500;
      - a missing counter key and a counter holding [0] are the same thing
        for [INCR], so the counter is a plain [Z]; the 64-bit bound of
        [INCR] itself is not modelled, since it takes 2^63 allocations to
        meet it;
      - [HGETALL] returns the fields of a hash in an order Redis does not
        specify; the model takes the order of [map_to_list], and no
        statement below depends on it. *)

From stdpp Require Import base gmap strings pretty list sorting.

Local Open Scope Z_scope.

(** ** The Redis database *)

(** The hash stored under the key [item_id:{id}]. A field that is absent
    from the hash is [None]. *)
Record item_hash := ItemHash {
  hf_item_id : option Z;
  hf_item_name : option string;
  hf_quantity : option Z
}.

Record redis := Redis {
  item_ids : Z;
  item_name_to_id : gmap string Z;
  item_id_hash : gmap Z item_hash
}.

(** A freshly started store: no key exists. *)
Definition empty_db : redis := Redis 0 ∅ ∅.

(** ** Responses *)

(** Modelled from the spec: the pydantic model [ItemPayload] of models.py,
    which is imported by main.py but is not among the sources; the spec
    gives a record its three fields, id, name and quantity. *)
Record ItemPayload := mkItemPayload {
  item_id : Z;
  item_name : string;
  quantity : Z
}.

Record HTTPException := mkHTTPException {
  status_code : Z;
  detail : string
}.

(** What the server answers when a handler lets an exception other than
    [HTTPException] escape, here the [ResponseError] that [redis_client]
    raises when the store refuses a command. *)
Definition internal_server_error : HTTPException :=
  mkHTTPException 500 "Internal Server Error".

(** The range of the integers [HINCRBY] works on. *)
Definition int64_min : Z := -9223372036854775808.
Definition int64_max : Z := 9223372036854775807.

Definition in_int64 (z : Z) : Prop := int64_min ≤ z ≤ int64_max.

(** [HINCRBY] on a field holding [current] (or missing) with increment
    [delta] is carried out when the increment, the value of the field (0
    when missing) and their sum are all signed 64-bit integers; otherwise
    Redis replies with an error and changes nothing. *)
Definition hincrby_accepts (current : option Z) (delta : Z) : Prop :=
  in_int64 delta ∧ in_int64 (default 0 current) ∧ in_int64 (default 0 current + delta).

Global Instance in_int64_dec z : Decision (in_int64 z).
Proof. unfold in_int64. apply _. Defined.

Global Instance hincrby_accepts_dec current delta : Decision (hincrby_accepts current delta).
Proof. unfold hincrby_accepts. apply _. Defined.

(** ** The handler monad: the store is threaded through, an exception
    aborts the handler and keeps the store as it was when it was raised.
    The left summand is the error response the client gets: the
    [HTTPException] the handler raised, or [internal_server_error]. *)
Definition handler (A : Type) : Type := redis → (HTTPException + A) * redis.

Global Instance handler_ret : MRet handler := λ A x db, (inr x, db).

Global Instance handler_bind : MBind handler := λ A B f m db,
  match m db with
  | (inl e, db') => (inl e, db')
  | (inr x, db') => f x db'
  end.

Definition raise {A} (e : HTTPException) : handler A := λ db, (inl e, db).

(** ** The commands of [redis_client] the handlers issue *)
Module redis_client.

(** [redis_client.incr("item_ids")] *)
Definition incr_item_ids : handler Z := λ db,
  let n := item_ids db + 1 in
  (inr n, Redis n (item_name_to_id db) (item_id_hash db)).

(** [redis_client.hget("item_name_to_id", name)] *)
Definition hget_item_name_to_id (name : string) : handler (option Z) := λ db,
  (inr (item_name_to_id db !! name), db).

(** [redis_client.hset("item_name_to_id", name, id)] *)
Definition hset_item_name_to_id (name : string) (id : Z) : handler unit := λ db,
  (inr (), Redis (item_ids db) (<[name := id]> (item_name_to_id db)) (item_id_hash db)).

(** [redis_client.hdel("item_name_to_id", name)] *)
Definition hdel_item_name_to_id (name : string) : handler unit := λ db,
  (inr (), Redis (item_ids db) (delete name (item_name_to_id db)) (item_id_hash db)).

(** [redis_client.hgetall("item_name_to_id")]. Redis returns the entries
    of a hash in an order of its own; here they come in the order of
    [map_to_list], and the statements about [list_items] are about which
    items are reported, not about their order. *)
Definition hgetall_item_name_to_id : handler (list (string * Z)) := λ db,
  (inr (map_to_list (item_name_to_id db)), db).

(** [redis_client.hexists(f"item_id:{id}", "item_id")] *)
Definition hexists_item_id (id : Z) : handler bool := λ db,
  (inr (match item_id_hash db !! id with
        | Some h => bool_decide (is_Some (hf_item_id h))
        | None => false
        end), db).

(** [redis_client.hget(f"item_id:{id}", "item_name")] *)
Definition hget_item_name (id : Z) : handler (option string) := λ db,
  (inr (item_id_hash db !! id ≫= hf_item_name), db).

(** [redis_client.hget(f"item_id:{id}", "quantity")] *)
Definition hget_quantity (id : Z) : handler (option Z) := λ db,
  (inr (item_id_hash db !! id ≫= hf_quantity), db).

(** [redis_client.hgetall(f"item_id:{id}")]; a key that does not exist
    reads as the hash without fields. *)
Definition hgetall_item (id : Z) : handler item_hash := λ db,
  (inr (default (ItemHash None None None) (item_id_hash db !! id)), db).

(** [redis_client.hset(f"item_id:{id}", mapping={"item_id": id,
    "item_name": name, "quantity": q})]: the three fields are set, on a
    new hash or over the ones an existing hash has. *)
Definition hset_item_mapping (id : Z) (name : string) (q : Z) : handler unit := λ db,
  (inr (), Redis (item_ids db) (item_name_to_id db)
                 (<[id := ItemHash (Some id) (Some name) (Some q)]> (item_id_hash db))).

(** [redis_client.hincrby(f"item_id:{id}", "quantity", delta)]: a missing
    field counts as 0 and a missing key as the empty hash; the new value
    is returned. When Redis refuses the command (see [hincrby_accepts])
    the call raises, nothing is written, and the request ends with
    status 500. *)
Definition hincrby_quantity (id : Z) (delta : Z) : handler Z := λ db,
  let h := default (ItemHash None None None) (item_id_hash db !! id) in
  if decide (hincrby_accepts (hf_quantity h) delta) then
    let n := default 0 (hf_quantity h) + delta in
    (inr n, Redis (item_ids db) (item_name_to_id db)
                  (<[id := ItemHash (hf_item_id h) (hf_item_name h) (Some n)]> (item_id_hash db)))
  else
    (inl internal_server_error, db).

(** [redis_client.delete(f"item_id:{id}")] *)
Definition delete_item_key (id : Z) : handler unit := λ db,
  (inr (), Redis (item_ids db) (item_name_to_id db) (delete id (item_id_hash db))).

End redis_client.
Import redis_client.

(** ** The handlers of main.py *)

(** Python's [f"{item_name}"] for [item_name : str | None]. *)
Definition fmt_name (item_name : option string) : string :=
  match item_name with
  | Some s => s
  | None => "None"
  end.

(** [POST /items/{item_name}/{quantity}] *)
Definition add_item (item_name : string) (quantity : Z) : handler ItemPayload :=
  if decide (quantity ≤ 0) then
    raise (mkHTTPException 400 "Quantity must be greater than 0.")
  else
    item_id_str ← hget_item_name_to_id item_name;
    item_id ← match item_id_str with
              | Some item_id =>
                  _ ← hincrby_quantity item_id quantity;
                  mret item_id
              | None =>
                  item_id ← incr_item_ids;
                  _ ← hset_item_mapping item_id item_name quantity;
                  _ ← hset_item_name_to_id item_name item_id;
                  mret item_id
              end;
    mret (mkItemPayload item_id item_name quantity).

(** [GET /items/{item_id}] *)
Definition list_item (item_id : Z) : handler item_hash :=
  found ← hexists_item_id item_id;
  if negb found then
    raise (mkHTTPException 404 "Item not found.")
  else
    hgetall_item item_id.

(** The body of the [for name, id_str in stored_items.items()] loop of
    [list_items], with [items] the list built so far. *)
Fixpoint list_items_loop (stored_items : list (string * Z))
    (items : list ItemPayload) : handler (list ItemPayload) :=
  match stored_items with
  | [] => mret items
  | (name, item_id) :: rest =>
      item_name_str ← hget_item_name item_id;
      match item_name_str with
      | None => list_items_loop rest items
      | Some item_name =>
          item_quantity_str ← hget_quantity item_id;
          let item_quantity :=
            match item_quantity_str with
            | Some q => q
            | None => 0
            end in
          list_items_loop rest (items ++ [mkItemPayload item_id item_name item_quantity])
      end
  end.

(** [GET /items] *)
Definition list_items : handler (list ItemPayload) :=
  stored_items ← hgetall_item_name_to_id;
  list_items_loop stored_items [].

(** [DELETE /items/{item_id}] *)
Definition delete_item (item_id : Z) : handler string :=
  found ← hexists_item_id item_id;
  if negb found then
    raise (mkHTTPException 404 "Item not found.")
  else
    item_name ← hget_item_name item_id;
    _ ← hdel_item_name_to_id (fmt_name item_name);
    _ ← delete_item_key item_id;
    mret ("Item (" +:+ pretty item_id +:+ ", " +:+ fmt_name item_name +:+ ") deleted.").

(** [DELETE /items/{item_id}/{quantity}] *)
Definition remove_quantity (item_id : Z) (quantity : Z) : handler string :=
  found ← hexists_item_id item_id;
  if negb found then
    raise (mkHTTPException 404 "Item not found.")
  else
    item_quantity ← hget_quantity item_id;
    item_name ← hget_item_name item_id;
    let existing_quantity :=
      match item_quantity with
      | None => 0
      | Some q => q
      end in
    if decide (existing_quantity ≤ quantity) then
      _ ← hdel_item_name_to_id (fmt_name item_name);
      _ ← delete_item_key item_id;
      mret ("Item (" +:+ pretty item_id +:+ ", " +:+ fmt_name item_name +:+ ") deleted.")
    else
      _ ← hincrby_quantity item_id (- quantity);
      mret (pretty quantity +:+ " of " +:+ pretty existing_quantity +:+ " items from ("
            +:+ pretty item_id +:+ ", " +:+ fmt_name item_name +:+ ") removed.").

(** ** The service as a transition system *)

Inductive request :=
  | POST_items (item_name : string) (quantity : Z)
  | GET_item (item_id : Z)
  | GET_items
  | DELETE_item (item_id : Z)
  | DELETE_quantity (item_id : Z) (quantity : Z).

Inductive body :=
  | ItemBody (item : ItemPayload)
  | RawItemBody (item : item_hash)
  | ItemsBody (items : list ItemPayload)
  | ResultBody (result : string).

(** The route table of [app]. *)
Definition serve (r : request) : handler body :=
  match r with
  | POST_items name q => p ← add_item name q; mret (ItemBody p)
  | GET_item id => h ← list_item id; mret (RawItemBody h)
  | GET_items => l ← list_items; mret (ItemsBody l)
  | DELETE_item id => s ← delete_item id; mret (ResultBody s)
  | DELETE_quantity id q => s ← remove_quantity id q; mret (ResultBody s)
  end.

(** The status line FastAPI sends: 200 for a returned body, the
    exception's code otherwise. *)
Definition status {A} (r : HTTPException + A) : Z :=
  match r with
  | inl e => status_code e
  | inr _ => 200
  end.

(** The store after a sequence of requests, served one after the other. *)
Fixpoint run (rs : list request) (db : redis) : redis :=
  match rs with
  | [] => db
  | r :: rs' => run rs' (serve r db).2
  end.

Inductive reachable : redis → Prop :=
  | reachable_empty : reachable empty_db
  | reachable_serve r db : reachable db → reachable (serve r db).2.

(** The ids handed out by [INCR item_ids] while a sequence of requests is
    served: an add-item request whose name the directory does not resolve
    takes the allocating branch, and answers with the id it was issued. *)
Definition newly_issued (r : request) (db : redis) : list Z :=
  match r with
  | POST_items name q =>
      match item_name_to_id db !! name, (add_item name q db).1 with
      | None, inr p => [item_id p]
      | _, _ => []
      end
  | _ => []
  end.

Fixpoint issued_ids (rs : list request) (db : redis) : list Z :=
  match rs with
  | [] => []
  | r :: rs' => newly_issued r db ++ issued_ids rs' (serve r db).2
  end.

(** ** Observations used in the statements *)

(** The quantity stored for an id, [None] when there is no such field. *)
Definition stored_quantity (db : redis) (id : Z) : option Z :=
  item_id_hash db !! id ≫= hf_quantity.

(** The quantity stored for a name: the directory resolves the name, the
    record of that id holds the quantity. *)
Definition name_quantity (db : redis) (name : string) : option Z :=
  item_name_to_id db !! name ≫= stored_quantity db.

(** The ids of the records whose name field is [name]. *)
Definition records_named (db : redis) (name : string) : list Z :=
  (map_to_list (filter (λ kv, hf_item_name kv.2 = Some name) (item_id_hash db))).*1.

(** [t] occurs in [s]. *)
Definition occurs_in (t s : string) : Prop :=
  ∃ pre post, s = pre +:+ t +:+ post.

(** The consistency the handlers keep between the counter, the directory
    and the records. *)
Record consistent (db : redis) : Prop := Consistent {
  consistent_record : ∀ id h, item_id_hash db !! id = Some h →
    id ≤ item_ids db ∧ hf_item_id h = Some id ∧
    ∃ name q, hf_item_name h = Some name ∧ hf_quantity h = Some q ∧
              0 < q ∧ item_name_to_id db !! name = Some id;
  consistent_directory : ∀ name id, item_name_to_id db !! name = Some id →
    ∃ h, item_id_hash db !! id = Some h ∧ hf_item_name h = Some name
}.

(** What list-items reports for one directory entry, written after the
    words of the spec rather than after the loop: an entry whose record has
    no name field is skipped, a missing quantity field reads as 0. The loop
    of [list_items] is compared with it below. *)
Definition spec_list_entry (db : redis) (entry : string * Z) : option ItemPayload :=
  match item_id_hash db !! entry.2 ≫= hf_item_name with
  | None => None
  | Some name => Some (mkItemPayload entry.2 name (default 0 (stored_quantity db entry.2)))
  end.

(** * Properties *)

(** ** The handlers, branch by branch *)

Lemma add_item_invalid name q db :
  q ≤ 0 →
  add_item name q db = (inl (mkHTTPException 400 "Quantity must be greater than 0."), db).
Proof. intros Hq. unfold add_item. by rewrite decide_True. Qed.

Lemma add_item_existing name q id db :
  0 < q → item_name_to_id db !! name = Some id →
  hincrby_accepts (item_id_hash db !! id ≫= hf_quantity) q →
  add_item name q db =
    (inr (mkItemPayload id name q),
     Redis (item_ids db) (item_name_to_id db)
       (<[id := ItemHash (item_id_hash db !! id ≫= hf_item_id)
                         (item_id_hash db !! id ≫= hf_item_name)
                         (Some (default 0 (item_id_hash db !! id ≫= hf_quantity) + q))]>
          (item_id_hash db))).
Proof.
  intros Hq Hid Hacc. unfold add_item. rewrite decide_False by lia.
  unfold mbind at 1 2 3, handler_bind, hget_item_name_to_id, hincrby_quantity.
  rewrite Hid. destruct (item_id_hash db !! id); cbn [default mbind option_bind] in *;
    by rewrite decide_True.
Qed.

(** The increment is refused: the request ends with status 500 and the
    store is as it was. *)
Lemma add_item_refused name q id db :
  0 < q → item_name_to_id db !! name = Some id →
  ¬ hincrby_accepts (item_id_hash db !! id ≫= hf_quantity) q →
  add_item name q db = (inl internal_server_error, db).
Proof.
  intros Hq Hid Hacc. unfold add_item. rewrite decide_False by lia.
  unfold mbind at 1 2 3, handler_bind, hget_item_name_to_id, hincrby_quantity.
  rewrite Hid. destruct (item_id_hash db !! id); cbn [default mbind option_bind] in *;
    by rewrite decide_False.
Qed.

Lemma add_item_new name q db :
  0 < q → item_name_to_id db !! name = None →
  add_item name q db =
    (inr (mkItemPayload (item_ids db + 1) name q),
     Redis (item_ids db + 1) (<[name := item_ids db + 1]> (item_name_to_id db))
       (<[item_ids db + 1 := ItemHash (Some (item_ids db + 1)) (Some name) (Some q)]>
          (item_id_hash db))).
Proof.
  intros Hq Hid. unfold add_item. rewrite decide_False by lia.
  unfold mbind, handler_bind, hget_item_name_to_id. by rewrite Hid.
Qed.

Lemma hexists_item_id_true id db :
  (hexists_item_id id db).1 = inr true ↔
  ∃ h, item_id_hash db !! id = Some h ∧ is_Some (hf_item_id h).
Proof.
  unfold hexists_item_id; simpl. destruct (item_id_hash db !! id) as [h|].
  - split.
    + intros [= Hb]. apply bool_decide_eq_true in Hb. eauto.
    + intros (h' & [= <-] & Hs). by rewrite bool_decide_eq_true_2.
  - split; [done | by intros (? & ? & ?)].
Qed.

Lemma list_item_absent id db :
  item_id_hash db !! id = None →
  list_item id db = (inl (mkHTTPException 404 "Item not found."), db).
Proof.
  intros Hid. unfold list_item, mbind, handler_bind, hexists_item_id. by rewrite Hid.
Qed.

Lemma delete_item_absent id db :
  item_id_hash db !! id = None →
  delete_item id db = (inl (mkHTTPException 404 "Item not found."), db).
Proof.
  intros Hid. unfold delete_item, mbind, handler_bind, hexists_item_id. by rewrite Hid.
Qed.

Lemma delete_item_present id h db :
  item_id_hash db !! id = Some h → is_Some (hf_item_id h) →
  delete_item id db =
    (inr ("Item (" +:+ pretty id +:+ ", " +:+ fmt_name (hf_item_name h) +:+ ") deleted."),
     Redis (item_ids db) (delete (fmt_name (hf_item_name h)) (item_name_to_id db))
           (delete id (item_id_hash db))).
Proof.
  intros Hid Hs. unfold delete_item, mbind, handler_bind, hexists_item_id, hget_item_name.
  rewrite Hid, bool_decide_eq_true_2 by done. cbn [negb]. by rewrite Hid.
Qed.

Lemma remove_quantity_absent id q db :
  item_id_hash db !! id = None →
  remove_quantity id q db = (inl (mkHTTPException 404 "Item not found."), db).
Proof.
  intros Hid. unfold remove_quantity, mbind, handler_bind, hexists_item_id. by rewrite Hid.
Qed.

Lemma remove_quantity_all id q h db :
  item_id_hash db !! id = Some h → is_Some (hf_item_id h) →
  default 0 (hf_quantity h) ≤ q →
  remove_quantity id q db =
    (inr ("Item (" +:+ pretty id +:+ ", " +:+ fmt_name (hf_item_name h) +:+ ") deleted."),
     Redis (item_ids db) (delete (fmt_name (hf_item_name h)) (item_name_to_id db))
           (delete id (item_id_hash db))).
Proof.
  intros Hid Hs Hq.
  unfold remove_quantity, mbind, handler_bind, hexists_item_id, hget_item_name, hget_quantity.
  rewrite Hid, bool_decide_eq_true_2 by done. cbn [negb]. rewrite Hid.
  cbn [mbind option_bind]. destruct (hf_quantity h); simpl in Hq; by rewrite decide_True.
Qed.

Lemma remove_quantity_some id q h db :
  item_id_hash db !! id = Some h → is_Some (hf_item_id h) →
  q < default 0 (hf_quantity h) →
  hincrby_accepts (hf_quantity h) (- q) →
  remove_quantity id q db =
    (inr (pretty q +:+ " of " +:+ pretty (default 0 (hf_quantity h)) +:+ " items from ("
          +:+ pretty id +:+ ", " +:+ fmt_name (hf_item_name h) +:+ ") removed."),
     Redis (item_ids db) (item_name_to_id db)
       (<[id := ItemHash (hf_item_id h) (hf_item_name h)
                         (Some (default 0 (hf_quantity h) - q))]> (item_id_hash db))).
Proof.
  intros Hid Hs Hq Hacc.
  unfold remove_quantity, mbind, handler_bind, hexists_item_id, hget_item_name, hget_quantity.
  rewrite Hid, bool_decide_eq_true_2 by done. cbn [negb]. rewrite Hid.
  cbn [mbind option_bind]. unfold hincrby_quantity.
  destruct (hf_quantity h) as [c|] eqn:Hc; simpl in Hq; rewrite decide_False by lia;
    rewrite Hid; cbn [default from_option Datatypes.id]; rewrite Hc, decide_True by done;
    simpl; rewrite ?Hc; reflexivity.
Qed.

(** The decrement is refused: the request ends with status 500 and the
    store is as it was. *)
Lemma remove_quantity_refused id q h db :
  item_id_hash db !! id = Some h → is_Some (hf_item_id h) →
  q < default 0 (hf_quantity h) →
  ¬ hincrby_accepts (hf_quantity h) (- q) →
  remove_quantity id q db = (inl internal_server_error, db).
Proof.
  intros Hid Hs Hq Hacc.
  unfold remove_quantity, mbind, handler_bind, hexists_item_id, hget_item_name, hget_quantity.
  rewrite Hid, bool_decide_eq_true_2 by done. cbn [negb]. rewrite Hid.
  cbn [mbind option_bind]. unfold hincrby_quantity.
  destruct (hf_quantity h) as [c|] eqn:Hc; simpl in Hq; rewrite decide_False by lia;
    rewrite Hid; cbn [default from_option Datatypes.id]; rewrite Hc, decide_False by done;
    reflexivity.
Qed.

(** ** Reads leave the store alone *)

Lemma list_item_state id db : (list_item id db).2 = db.
Proof.
  unfold list_item, mbind, handler_bind, hexists_item_id, hgetall_item, raise.
  by destruct (negb _).
Qed.

Lemma list_items_loop_spec stored_items items db :
  list_items_loop stored_items items db =
    (inr (items ++ omap (spec_list_entry db) stored_items), db).
Proof.
  revert items. induction stored_items as [|[name id] rest IH]; intros items.
  - simpl. by rewrite app_nil_r.
  - cbn [list_items_loop omap list_omap]. unfold spec_list_entry at 1, stored_quantity.
    unfold mbind at 1, handler_bind at 1, hget_item_name at 1. cbn [snd].
    destruct (item_id_hash db !! id ≫= hf_item_name) as [nm|].
    + unfold mbind at 1, handler_bind at 1, hget_quantity. rewrite IH.
      rewrite <- app_assoc. cbn [app].
      by destruct (item_id_hash db !! id ≫= hf_quantity).
    + apply IH.
Qed.

Lemma list_items_spec db :
  list_items db =
    (inr (omap (spec_list_entry db) (map_to_list (item_name_to_id db))), db).
Proof.
  unfold list_items, mbind, handler_bind, hgetall_item_name_to_id.
  by rewrite list_items_loop_spec.
Qed.

Lemma serve_state r db :
  (serve r db).2 =
    match r with
    | POST_items name q => (add_item name q db).2
    | DELETE_item id => (delete_item id db).2
    | DELETE_quantity id q => (remove_quantity id q db).2
    | GET_item _ | GET_items => db
    end.
Proof.
  destruct r as [name q|id| |id|id q]; unfold serve, mbind, handler_bind.
  - by destruct (add_item name q db) as [[e|p] db'].
  - rewrite <- (list_item_state id db) at 2. by destruct (list_item id db) as [[e|p] db'].
  - by rewrite list_items_spec.
  - by destruct (delete_item id db) as [[e|p] db'].
  - by destruct (remove_quantity id q db) as [[e|p] db'].
Qed.

(** ** Consistency is kept by every handler *)

Lemma consistent_empty : consistent empty_db.
Proof. split; simpl; intros ??; by rewrite lookup_empty. Qed.

Lemma consistent_add_item name q db :
  consistent db → consistent (add_item name q db).2.
Proof.
  intros [Hrec Hdir]. destruct (decide (q ≤ 0)) as [Hq|Hq].
  { rewrite add_item_invalid by done. by split. }
  destruct (item_name_to_id db !! name) as [id|] eqn:Hname.
  - destruct (decide (hincrby_accepts (item_id_hash db !! id ≫= hf_quantity) q)) as [Hacc|Hacc];
      [|rewrite (add_item_refused name q id) by (done || lia); by split].
    rewrite (add_item_existing name q id) by (done || lia). cbn [snd].
    destruct (Hdir _ _ Hname) as (h & Hh & Hnm).
    destruct (Hrec _ _ Hh) as (Hle & Hid & name' & c & Hnm' & Hc & Hpos & Hd).
    rewrite Hh. cbn [mbind option_bind]. rewrite Hc. cbn [default].
    split; cbn [item_ids item_name_to_id item_id_hash].
    + intros id' h'. rewrite lookup_insert. case_decide as Heq.
      * intros [= <-]. subst id'. cbn. repeat split; try done.
        exists name', (c + q). repeat split; try done. lia.
      * apply Hrec.
    + intros name2 id2 Hn2. rewrite lookup_insert. case_decide as Heq.
      * subst id2. eexists. split; [done|]. cbn.
        destruct (Hdir _ _ Hn2) as (h2 & Hh2 & Hnm2). congruence.
      * by apply Hdir.
  - rewrite add_item_new by (done || lia). cbn [snd].
    split; cbn [item_ids item_name_to_id item_id_hash].
    + intros id' h'. rewrite lookup_insert. case_decide as Heq.
      * intros [= <-]. subst id'. cbn. repeat split; try done; try lia.
        exists name, q. repeat split; try done; try lia. by rewrite lookup_insert_eq.
      * intros Hh'. destruct (Hrec _ _ Hh') as (Hle & Hid & name' & c & Hnm' & Hc & Hpos & Hd).
        repeat split; try done; try lia.
        exists name', c. repeat split; try done.
        rewrite lookup_insert_ne; [done|]. intros ->. congruence.
    + intros name2 id2. rewrite lookup_insert. case_decide as Heq.
      * intros [= <-]. subst name2. eexists. by rewrite lookup_insert_eq.
      * intros Hn2. destruct (Hdir _ _ Hn2) as (h2 & Hh2 & Hnm2).
        exists h2. split; [|done]. rewrite lookup_insert_ne; [done|].
        destruct (Hrec _ _ Hh2) as (Hle & _). lia.
Qed.

(** Dropping a record together with the directory entry of its name. *)
Lemma consistent_drop id h db :
  consistent db → item_id_hash db !! id = Some h →
  consistent (Redis (item_ids db) (delete (fmt_name (hf_item_name h)) (item_name_to_id db))
                    (delete id (item_id_hash db))).
Proof.
  intros [Hrec Hdir] Hh.
  destruct (Hrec _ _ Hh) as (Hle & Hid & name & c & Hnm & Hc & Hpos & Hd).
  rewrite Hnm. cbn [fmt_name].
  split; cbn [item_ids item_name_to_id item_id_hash].
  - intros id' h'. rewrite lookup_delete. case_decide as Heq; [done|]. intros Hh'.
    destruct (Hrec _ _ Hh') as (Hle' & Hid' & name' & c' & Hnm' & Hc' & Hpos' & Hd').
    repeat split; try done. exists name', c'. repeat split; try done.
    rewrite lookup_delete_ne; [done|]. intros ->. congruence.
  - intros name2 id2. rewrite lookup_delete. case_decide as Heq; [done|]. intros Hn2.
    destruct (Hdir _ _ Hn2) as (h2 & Hh2 & Hnm2).
    exists h2. split; [|done]. rewrite lookup_delete_ne; [done|]. intros ->. congruence.
Qed.

Lemma consistent_delete_item id db :
  consistent db → consistent (delete_item id db).2.
Proof.
  intros Hc. destruct (item_id_hash db !! id) as [h|] eqn:Hh.
  - destruct (consistent_record _ Hc _ _ Hh) as (_ & Hid & _).
    rewrite (delete_item_present id h) by (done || by rewrite Hid).
    by apply consistent_drop.
  - by rewrite delete_item_absent.
Qed.

Lemma consistent_remove_quantity id q db :
  consistent db → consistent (remove_quantity id q db).2.
Proof.
  intros Hc. destruct (item_id_hash db !! id) as [h|] eqn:Hh.
  - destruct (consistent_record _ Hc _ _ Hh) as (Hle & Hid & name & c & Hnm & Hq & Hpos & Hd).
    destruct (decide (default 0 (hf_quantity h) ≤ q)) as [Hall|Hsome].
    + rewrite (remove_quantity_all id q h) by (done || by rewrite Hid).
      by apply consistent_drop.
    + destruct (decide (hincrby_accepts (hf_quantity h) (- q))) as [Hacc|Hacc];
        [|by rewrite (remove_quantity_refused id q h) by (done || lia || by rewrite Hid)].
      rewrite (remove_quantity_some id q h) by (done || lia || by rewrite Hid).
      rewrite Hq in *. cbn [default from_option Datatypes.id snd] in *. destruct Hc as [Hrec Hdir].
      split; cbn [item_ids item_name_to_id item_id_hash].
      * intros id' h'. rewrite lookup_insert. case_decide as Heq.
        -- intros [= <-]. subst id'. cbn. repeat split; try done.
           exists name, (c - q). repeat split; try done. lia.
        -- apply Hrec.
      * intros name2 id2 Hn2. rewrite lookup_insert. case_decide as Heq.
        -- subst id2. eexists. split; [done|]. cbn.
           destruct (Hdir _ _ Hn2) as (h2 & Hh2 & Hnm2). congruence.
        -- by apply Hdir.
  - by rewrite remove_quantity_absent.
Qed.

Lemma consistent_serve r db : consistent db → consistent (serve r db).2.
Proof.
  intros Hc. rewrite serve_state. destruct r.
  - by apply consistent_add_item.
  - done.
  - done.
  - by apply consistent_delete_item.
  - by apply consistent_remove_quantity.
Qed.

Lemma reachable_consistent db : reachable db → consistent db.
Proof.
  induction 1 as [|r db _ IH]; [apply consistent_empty | by apply consistent_serve].
Qed.

Lemma reachable_run rs db : reachable db → reachable (run rs db).
Proof.
  revert db. induction rs as [|r rs IH]; intros db Hdb; [done|].
  cbn [run]. apply IH. by constructor.
Qed.

(** ** Helper facts shared by the statements below *)

(** What a valid add-item answers and stores, in any state of the store. *)
Lemma add_item_valid name q db :
  0 < q →
  (∀ id, item_name_to_id db !! name = Some id → hincrby_accepts (stored_quantity db id) q) →
  ∃ p db',
    add_item name q db = (inr p, db') ∧
    item_name p = name ∧ quantity p = q ∧
    item_name_to_id db' !! name = Some (item_id p) ∧
    (∀ id, item_name_to_id db !! name = Some id → item_id p = id) ∧
    name_quantity db' name = Some (default 0 (name_quantity db name) + q).
Proof.
  intros Hq Hacc. unfold name_quantity, stored_quantity in *.
  destruct (item_name_to_id db !! name) as [id|] eqn:Hname.
  - rewrite (add_item_existing name q id) by (done || by apply Hacc).
    eexists _, _. split; [done|]. cbn [item_name quantity item_id item_name_to_id item_id_hash].
    rewrite Hname. cbn [mbind option_bind]. rewrite lookup_insert_eq.
    repeat split; try done. by intros ? [= <-].
  - rewrite add_item_new by done.
    eexists _, _. split; [done|]. cbn [item_name quantity item_id item_name_to_id item_id_hash].
    rewrite lookup_insert_eq. cbn [mbind option_bind]. rewrite lookup_insert_eq.
    repeat split; done.
Qed.

(** On a consistent store the stored quantities are above 0, so an
    increment above 0 is accepted exactly when the sum stays within the
    64-bit range. *)
Lemma hincrby_accepts_positive c q :
  0 < c → 0 < q → hincrby_accepts (Some c) q ↔ c + q ≤ int64_max.
Proof.
  intros Hc Hq. unfold hincrby_accepts, in_int64, int64_min, int64_max.
  cbn [default from_option Datatypes.id]. lia.
Qed.

(** The quantity a consistent store holds for a name that resolves. *)
Lemma consistent_name_quantity name id db :
  consistent db → item_name_to_id db !! name = Some id →
  ∃ c, stored_quantity db id = Some c ∧ name_quantity db name = Some c ∧ 0 < c.
Proof.
  intros [Hrec Hdir] Hname. destruct (Hdir _ _ Hname) as (h & Hh & _).
  destruct (Hrec _ _ Hh) as (_ & _ & _ & c & _ & Hc & Hpos & _).
  exists c. unfold name_quantity, stored_quantity. rewrite Hname. cbn [mbind option_bind].
  by rewrite Hh.
Qed.

(** In a consistent store, add-item with a quantity above 0 is carried
    out when the name is not stored, or when the quantity stored for it
    plus the one added is within the 64-bit range. *)
Lemma add_item_accepted name q db :
  consistent db → 0 < q →
  item_name_to_id db !! name = None ∨ default 0 (name_quantity db name) + q ≤ int64_max →
  ∀ id, item_name_to_id db !! name = Some id → hincrby_accepts (stored_quantity db id) q.
Proof.
  intros Hc Hq Hfit id Hname. destruct Hfit as [Hnone|Hsum]; [congruence|].
  destruct (consistent_name_quantity _ _ _ Hc Hname) as (c & -> & Hnq & Hpos).
  rewrite Hnq in Hsum. by apply hincrby_accepts_positive.
Qed.

Lemma records_named_consistent name id db :
  consistent db → item_name_to_id db !! name = Some id →
  records_named db name = [id].
Proof.
  intros [Hrec Hdir] Hname. destruct (Hdir _ _ Hname) as (h & Hh & Hnm).
  unfold records_named.
  assert (filter (λ kv : Z * item_hash, hf_item_name kv.2 = Some name) (item_id_hash db)
          = {[id := h]}) as ->.
  { apply map_eq. intros i. apply option_eq. intros h'.
    rewrite map_lookup_filter_Some, lookup_singleton_Some. cbn [snd]. split.
    - intros [Hi Hn]. destruct (Hrec _ _ Hi) as (_ & _ & name' & c & Hnm' & _ & _ & Hd).
      assert (name' = name) as -> by congruence.
      assert (i = id) as -> by congruence. split; congruence.
    - intros [<- <-]. done. }
  by rewrite map_to_list_singleton.
Qed.

Lemma add_item_counter_existing name q id db :
  item_name_to_id db !! name = Some id → item_ids (add_item name q db).2 = item_ids db.
Proof.
  intros Hname. destruct (decide (q ≤ 0)); [by rewrite add_item_invalid|].
  destruct (decide (hincrby_accepts (item_id_hash db !! id ≫= hf_quantity) q)).
  - by rewrite (add_item_existing name q id) by (done || lia).
  - by rewrite (add_item_refused name q id) by (done || lia).
Qed.

Lemma remove_quantity_counter id q db : item_ids (remove_quantity id q db).2 = item_ids db.
Proof.
  destruct (item_id_hash db !! id) as [h|] eqn:Hh; [|by rewrite remove_quantity_absent].
  destruct (hf_item_id h) as [i|] eqn:Hi.
  - destruct (decide (default 0 (hf_quantity h) ≤ q)).
    + by rewrite (remove_quantity_all id q h) by (done || by rewrite Hi).
    + destruct (decide (hincrby_accepts (hf_quantity h) (- q))).
      * by rewrite (remove_quantity_some id q h) by (done || lia || by rewrite Hi).
      * by rewrite (remove_quantity_refused id q h) by (done || lia || by rewrite Hi).
  - unfold remove_quantity, mbind, handler_bind, hexists_item_id, raise.
    rewrite Hh, Hi. by rewrite bool_decide_eq_false_2 by by intros [].
Qed.

Lemma serve_counter_mono r db : item_ids db ≤ item_ids (serve r db).2.
Proof.
  rewrite serve_state. destruct r as [name q|id| |id|id q]; try done.
  - destruct (item_name_to_id db !! name) as [id|] eqn:Hname.
    + by rewrite (add_item_counter_existing name q id).
    + destruct (decide (q ≤ 0)); [by rewrite add_item_invalid|].
      rewrite add_item_new by (done || lia). cbn. lia.
  - destruct (item_id_hash db !! id) as [h|] eqn:Hh; [|by rewrite delete_item_absent].
    unfold delete_item, mbind, handler_bind, hexists_item_id, raise.
    rewrite Hh. by destruct (negb _).
  - by rewrite remove_quantity_counter.
Qed.

(** A request issues no id, or the successor of the counter, which the
    counter then holds. *)
Lemma newly_issued_cases r db :
  newly_issued r db = [] ∨
  (newly_issued r db = [item_ids db + 1] ∧ item_ids (serve r db).2 = item_ids db + 1).
Proof.
  destruct r as [name q|id| |id|id q]; try by left.
  unfold newly_issued. rewrite serve_state.
  destruct (item_name_to_id db !! name) as [id|] eqn:Hname; [by left|].
  destruct (decide (q ≤ 0)); [rewrite add_item_invalid by done; by left|].
  rewrite add_item_new by (done || lia). by right.
Qed.

Lemma delete_item_counter id db : item_ids (delete_item id db).2 = item_ids db.
Proof.
  unfold delete_item, mbind, handler_bind, hexists_item_id, raise.
  by destruct (negb _).
Qed.

Lemma string_app_assoc (s1 s2 s3 : string) : (s1 +:+ s2) +:+ s3 = s1 +:+ s2 +:+ s3.
Proof.
  induction s1 as [|a s1 IH]; [done|].
  change (String a ((s1 +:+ s2) +:+ s3) = String a (s1 +:+ s2 +:+ s3)).
  by rewrite IH.
Qed.

Lemma occurs_in_middle pre t post : occurs_in t (pre +:+ t +:+ post).
Proof. by exists pre, post. Qed.

Lemma occurs_in_app_r pre t s : occurs_in t s → occurs_in t (pre +:+ s).
Proof.
  intros (a & b & ->). exists (pre +:+ a), b.
  by rewrite string_app_assoc.
Qed.

(** ** The example of the spec, run on the model *)

Example spec_example_add_5 :
  add_item "apple" 5 empty_db =
    (inr (mkItemPayload 1 "apple" 5),
     Redis 1 {["apple" := 1]} {[1 := ItemHash (Some 1) (Some "apple") (Some 5)]}).
Proof. reflexivity. Qed.

Example spec_example_add_3 :
  run [POST_items "apple" 5; POST_items "apple" 3] empty_db =
    Redis 1 {["apple" := 1]} {[1 := ItemHash (Some 1) (Some "apple") (Some 8)]}.
Proof. reflexivity. Qed.

Example spec_example_remove_10 :
  serve (DELETE_quantity 1 10) (run [POST_items "apple" 5; POST_items "apple" 3] empty_db) =
    (inr (ResultBody "Item (1, apple) deleted."), Redis 1 ∅ ∅).
Proof. reflexivity. Qed.

Example spec_example_get_404 :
  serve (GET_item 1)
    (run [POST_items "apple" 5; POST_items "apple" 3; DELETE_quantity 1 10] empty_db) =
    (inl (mkHTTPException 404 "Item not found."), Redis 1 ∅ ∅).
Proof. reflexivity. Qed.

Example spec_example_id_not_reused :
  (serve (POST_items "pear" 2)
    (run [POST_items "apple" 5; POST_items "apple" 3; DELETE_quantity 1 10] empty_db)).1 =
    inr (ItemBody (mkItemPayload 2 "pear" 2)).
Proof. reflexivity. Qed.

(** ** C1: what add-item answers *)

(** C1, as stated, fails: after [POST /items/apple/5], the request
    [POST /items/apple/3] is answered with quantity 3, the quantity of the
    request, while the quantity stored for apple is then 8. *)
Lemma add_item_response_is_not_stored_quantity :
  ∃ p db',
    add_item "apple" 3 (run [POST_items "apple" 5] empty_db) = (inr p, db') ∧
    quantity p = 3 ∧
    name_quantity db' "apple" = Some 8 ∧
    name_quantity db' "apple" ≠ Some (quantity p).
Proof.
  exists (mkItemPayload 1 "apple" 3),
    (Redis 1 {["apple" := 1]} {[1 := ItemHash (Some 1) (Some "apple") (Some 8)]}).
  repeat split; try reflexivity. by intros [=].
Qed.

(** C1, amended: in a reachable store, every add-item request with a
    quantity above 0, for a name that is not stored or whose stored
    quantity plus the requested one is at most 2^63 - 1, succeeds and
    answers with the id the directory holds for the name afterwards, the
    name, and the quantity of the request; the quantity stored for the
    name afterwards is what was stored before (0 for a name not stored)
    plus the quantity of the request, so the answer's quantity is the
    stored one when the name was not stored before. *)
Theorem add_item_response name q db :
  reachable db → 0 < q →
  item_name_to_id db !! name = None ∨ default 0 (name_quantity db name) + q ≤ int64_max →
  ∃ p db',
    add_item name q db = (inr p, db') ∧
    item_name p = name ∧
    quantity p = q ∧
    item_name_to_id db' !! name = Some (item_id p) ∧
    name_quantity db' name = Some (default 0 (name_quantity db name) + quantity p) ∧
    (name_quantity db name = None → name_quantity db' name = Some (quantity p)).
Proof.
  intros Hreach Hq Hfit. pose proof (reachable_consistent _ Hreach) as Hc.
  destruct (add_item_valid name q db Hq (add_item_accepted name q db Hc Hq Hfit))
    as (p & db' & Hadd & Hn & Hqp & Hd & _ & Hst).
  exists p, db'. rewrite Hqp. repeat split; try done.
  intros Hnone. by rewrite Hst, Hnone.
Qed.

Lemma add_item_response_witness :
  reachable (run [POST_items "apple" 5] empty_db) ∧ 0 < 3 ∧
  (item_name_to_id (run [POST_items "apple" 5] empty_db) !! "apple" = None ∨
   default 0 (name_quantity (run [POST_items "apple" 5] empty_db) "apple") + 3 ≤ int64_max) ∧
  ∃ p db',
    add_item "apple" 3 (run [POST_items "apple" 5] empty_db) = (inr p, db') ∧
    item_name p = "apple" ∧
    quantity p = 3 ∧
    item_name_to_id db' !! "apple" = Some (item_id p) ∧
    name_quantity db' "apple" =
      Some (default 0 (name_quantity (run [POST_items "apple" 5] empty_db) "apple") + quantity p) ∧
    (name_quantity (run [POST_items "apple" 5] empty_db) "apple" = None →
     name_quantity db' "apple" = Some (quantity p)).
Proof.
  split; [apply (reachable_run [POST_items "apple" 5] empty_db reachable_empty)|].
  split; [lia|]. split; [right; vm_compute; discriminate|].
  apply (add_item_response "apple" 3 (run [POST_items "apple" 5] empty_db)).
  - apply (reachable_run [POST_items "apple" 5] empty_db reachable_empty).
  - lia.
  - right; vm_compute; discriminate.
Defined.

(** ** C2: adding twice under one name *)

(** C2, as stated, fails: [HINCRBY] works on signed 64-bit integers. After
    [POST /items/apple/9223372036854775807] on the empty store, the
    request [POST /items/apple/1] is refused by the store and answered
    with status 500; the stored quantity stays 2^63 - 1 and is not the sum
    of the two quantities. *)
Lemma add_item_twice_overflows :
  ∃ p1 db1,
    add_item "apple" 9223372036854775807 empty_db = (inr p1, db1) ∧
    add_item "apple" 1 db1 = (inl internal_server_error, db1) ∧
    stored_quantity db1 (item_id p1) = Some 9223372036854775807 ∧
    stored_quantity (add_item "apple" 1 db1).2 (item_id p1)
      ≠ Some (9223372036854775807 + 1).
Proof.
  exists (mkItemPayload 1 "apple" 9223372036854775807),
    (Redis 1 {["apple" := 1]}
       {[1 := ItemHash (Some 1) (Some "apple") (Some 9223372036854775807)]}).
  repeat split; try reflexivity. vm_compute. by intros [=].
Qed.

(** C2, amended: in a reachable store, two add-item calls with the same
    name and quantities q1, q2 above 0, such that what was stored for the
    name (0 if nothing) plus q1 + q2 is at most 2^63 - 1, answer with the
    same id, to which the directory resolves the name after each call;
    afterwards exactly one record carries the name, and its stored
    quantity is what was stored for the name before plus q1 + q2: exactly
    q1 + q2 when the name was not stored before the first call. *)
Theorem add_item_twice name q1 q2 db :
  reachable db → 0 < q1 → 0 < q2 →
  default 0 (name_quantity db name) + (q1 + q2) ≤ int64_max →
  ∃ p1 db1 p2 db2,
    add_item name q1 db = (inr p1, db1) ∧
    add_item name q2 db1 = (inr p2, db2) ∧
    item_id p1 = item_id p2 ∧
    item_name_to_id db1 !! name = Some (item_id p1) ∧
    item_name_to_id db2 !! name = Some (item_id p2) ∧
    records_named db2 name = [item_id p2] ∧
    stored_quantity db2 (item_id p2) = Some (default 0 (name_quantity db name) + (q1 + q2)) ∧
    (item_name_to_id db !! name = None →
     stored_quantity db2 (item_id p2) = Some (q1 + q2)).
Proof.
  intros Hreach Hq1 Hq2 Hfit. pose proof (reachable_consistent _ Hreach) as Hc.
  assert (0 ≤ default 0 (name_quantity db name)) as Hprior.
  { unfold name_quantity. destruct (item_name_to_id db !! name) as [id|] eqn:Hname; [|done].
    destruct (consistent_name_quantity _ _ _ Hc Hname) as (c & Hst & _ & Hpos).
    cbn [mbind option_bind]. rewrite Hst. cbn. lia. }
  destruct (add_item_valid name q1 db Hq1) as (p1 & db1 & Hadd1 & _ & _ & Hd1 & _ & Hst1).
  { apply (add_item_accepted name q1 db Hc Hq1). right. lia. }
  assert (consistent db1) as Hc1.
  { replace db1 with (add_item name q1 db).2 by by rewrite Hadd1.
    by apply consistent_add_item. }
  destruct (add_item_valid name q2 db1 Hq2) as (p2 & db2 & Hadd2 & _ & _ & Hd2 & Hsame & Hst2).
  { apply (add_item_accepted name q2 db1 Hc1 Hq2). right. rewrite Hst1. cbn. lia. }
  assert (consistent db2) as Hc2.
  { replace db2 with (add_item name q2 db1).2 by by rewrite Hadd2.
    by apply consistent_add_item. }
  assert (stored_quantity db2 (item_id p2)
          = Some (default 0 (name_quantity db name) + (q1 + q2))) as Hsum.
  { unfold name_quantity in Hst2 at 1. rewrite Hd2 in Hst2. cbn [mbind option_bind] in Hst2.
    rewrite Hst2, Hst1. cbn. f_equal. lia. }
  exists p1, db1, p2, db2. repeat split; try done.
  - symmetry. by apply Hsame.
  - by apply records_named_consistent.
  - intros Hnone. rewrite Hsum. unfold name_quantity. by rewrite Hnone.
Qed.

Lemma add_item_twice_witness :
  reachable empty_db ∧ 0 < 5 ∧ 0 < 3 ∧
  default 0 (name_quantity empty_db "apple") + (5 + 3) ≤ int64_max ∧
  ∃ p1 db1 p2 db2,
    add_item "apple" 5 empty_db = (inr p1, db1) ∧
    add_item "apple" 3 db1 = (inr p2, db2) ∧
    item_id p1 = item_id p2 ∧
    item_name_to_id db1 !! "apple" = Some (item_id p1) ∧
    item_name_to_id db2 !! "apple" = Some (item_id p2) ∧
    records_named db2 "apple" = [item_id p2] ∧
    stored_quantity db2 (item_id p2) = Some (default 0 (name_quantity empty_db "apple") + (5 + 3)) ∧
    (item_name_to_id empty_db !! "apple" = None →
     stored_quantity db2 (item_id p2) = Some (5 + 3)).
Proof.
  split; [apply reachable_empty|]. split; [lia|]. split; [lia|].
  split; [vm_compute; discriminate|].
  apply (add_item_twice "apple" 5 3 empty_db);
    [apply reachable_empty | lia | lia | vm_compute; discriminate].
Defined.

(** ** C3: stored quantities are positive *)

(** C3: after any sequence of requests served from the empty store, every
    record in the store has a quantity field, and it is above 0. *)
Theorem quantity_always_positive rs id h :
  item_id_hash (run rs empty_db) !! id = Some h →
  ∃ q, hf_quantity h = Some q ∧ 0 < q.
Proof.
  intros Hh.
  pose proof (reachable_consistent _ (reachable_run rs _ reachable_empty)) as Hc.
  destruct (consistent_record _ Hc _ _ Hh) as (_ & _ & name & q & _ & Hq & Hpos & _).
  by exists q.
Qed.

Lemma quantity_always_positive_witness :
  item_id_hash (run [POST_items "apple" 5; DELETE_quantity 1 2; POST_items "pear" 1;
                     DELETE_item 2; DELETE_quantity 1 (-4)] empty_db) !! 1
    = Some (ItemHash (Some 1) (Some "apple") (Some 7)) ∧
  ∃ q, hf_quantity (ItemHash (Some 1) (Some "apple") (Some 7)) = Some q ∧ 0 < q.
Proof.
  split; [reflexivity|].
  apply (quantity_always_positive
           [POST_items "apple" 5; DELETE_quantity 1 2; POST_items "pear" 1;
            DELETE_item 2; DELETE_quantity 1 (-4)] 1).
  reflexivity.
Defined.

(** ** C4 and C5: remove-quantity *)

(** C4: when the record of id exists and the amount is at least its
    current quantity (0 if the field is missing), remove-quantity succeeds
    and deletes the record and the directory entry of its name: afterwards
    get-item on id answers 404 and the directory does not resolve the
    name. *)
Theorem remove_quantity_deletes id amount h db :
  item_id_hash db !! id = Some h → is_Some (hf_item_id h) →
  default 0 (hf_quantity h) ≤ amount →
  ∃ msg db',
    remove_quantity id amount db = (inr msg, db') ∧
    item_id_hash db' !! id = None ∧
    list_item id db' = (inl (mkHTTPException 404 "Item not found."), db') ∧
    (∀ name, hf_item_name h = Some name → item_name_to_id db' !! name = None) ∧
    (reachable db → ∀ name, item_name_to_id db' !! name ≠ Some id).
Proof.
  intros Hh Hid Hq. rewrite (remove_quantity_all id amount h) by done.
  eexists _, _. split; [done|]. cbn [item_id_hash item_name_to_id].
  assert (delete id (item_id_hash db) !! id = None) as Hgone by apply lookup_delete_eq.
  repeat split; try done.
  - by apply list_item_absent.
  - intros name ->. apply lookup_delete_eq.
  - intros Hreach name Hname.
    pose proof (consistent_drop id h db (reachable_consistent _ Hreach) Hh) as Hc.
    destruct (consistent_directory _ Hc _ _ Hname) as (h' & Hh' & _).
    cbn [item_id_hash] in Hh'. congruence.
Qed.

Lemma remove_quantity_deletes_witness :
  item_id_hash (run [POST_items "apple" 5; POST_items "apple" 3] empty_db) !! 1
    = Some (ItemHash (Some 1) (Some "apple") (Some 8)) ∧
  is_Some (hf_item_id (ItemHash (Some 1) (Some "apple") (Some 8))) ∧
  default 0 (hf_quantity (ItemHash (Some 1) (Some "apple") (Some 8))) ≤ 10 ∧
  ∃ msg db',
    remove_quantity 1 10 (run [POST_items "apple" 5; POST_items "apple" 3] empty_db)
      = (inr msg, db') ∧
    item_id_hash db' !! 1 = None ∧
    list_item 1 db' = (inl (mkHTTPException 404 "Item not found."), db') ∧
    (∀ name, hf_item_name (ItemHash (Some 1) (Some "apple") (Some 8)) = Some name →
             item_name_to_id db' !! name = None) ∧
    (reachable (run [POST_items "apple" 5; POST_items "apple" 3] empty_db) →
     ∀ name, item_name_to_id db' !! name ≠ Some 1).
Proof.
  split; [reflexivity|]. split; [exists 1; reflexivity|]. split; [simpl; lia|].
  apply (remove_quantity_deletes 1 10 (ItemHash (Some 1) (Some "apple") (Some 8))
           (run [POST_items "apple" 5; POST_items "apple" 3] empty_db)).
  - reflexivity.
  - exists 1; reflexivity.
  - simpl; lia.
Defined.

(** C5, as stated, fails: [HINCRBY] works on signed 64-bit integers. After
    [POST /items/apple/9223372036854775808] on the empty store the record
    holds 2^63; [DELETE /items/1/1] asks for less than that, so the
    decrement is issued, the store refuses it, the request is answered
    with status 500 and the stored quantity stays 2^63 instead of
    becoming 2^63 - 1. *)
Lemma remove_quantity_refused_on_large_quantity :
  item_id_hash (run [POST_items "apple" 9223372036854775808] empty_db) !! 1
    = Some (ItemHash (Some 1) (Some "apple") (Some 9223372036854775808)) ∧
  1 < 9223372036854775808 ∧
  remove_quantity 1 1 (run [POST_items "apple" 9223372036854775808] empty_db)
    = (inl internal_server_error, run [POST_items "apple" 9223372036854775808] empty_db) ∧
  stored_quantity
    (remove_quantity 1 1 (run [POST_items "apple" 9223372036854775808] empty_db)).2 1
    ≠ Some (9223372036854775808 - 1).
Proof.
  repeat split; try reflexivity. vm_compute. by intros [=].
Qed.

(** C5, amended: when the record of id exists, the amount is below its
    current quantity c (0 if the field is missing), and the store accepts
    the decrement (the amount negated, c, and c - amount are signed
    64-bit integers), remove-quantity succeeds and leaves the record in
    place with quantity exactly c - amount, its other fields and the
    directory untouched. *)
Theorem remove_quantity_decrements id amount h db :
  item_id_hash db !! id = Some h → is_Some (hf_item_id h) →
  amount < default 0 (hf_quantity h) →
  hincrby_accepts (hf_quantity h) (- amount) →
  ∃ msg db',
    remove_quantity id amount db = (inr msg, db') ∧
    item_id_hash db' !! id =
      Some (ItemHash (hf_item_id h) (hf_item_name h)
                     (Some (default 0 (hf_quantity h) - amount))) ∧
    stored_quantity db' id = Some (default 0 (hf_quantity h) - amount) ∧
    item_name_to_id db' = item_name_to_id db.
Proof.
  intros Hh Hid Hq Hacc. rewrite (remove_quantity_some id amount h) by done.
  eexists _, _. split; [done|]. unfold stored_quantity.
  cbn [item_id_hash item_name_to_id]. by rewrite lookup_insert_eq.
Qed.

Lemma remove_quantity_decrements_witness :
  item_id_hash (run [POST_items "apple" 5; POST_items "apple" 3] empty_db) !! 1
    = Some (ItemHash (Some 1) (Some "apple") (Some 8)) ∧
  is_Some (hf_item_id (ItemHash (Some 1) (Some "apple") (Some 8))) ∧
  2 < default 0 (hf_quantity (ItemHash (Some 1) (Some "apple") (Some 8))) ∧
  hincrby_accepts (hf_quantity (ItemHash (Some 1) (Some "apple") (Some 8))) (- 2) ∧
  ∃ msg db',
    remove_quantity 1 2 (run [POST_items "apple" 5; POST_items "apple" 3] empty_db)
      = (inr msg, db') ∧
    item_id_hash db' !! 1 =
      Some (ItemHash (hf_item_id (ItemHash (Some 1) (Some "apple") (Some 8)))
                     (hf_item_name (ItemHash (Some 1) (Some "apple") (Some 8)))
                     (Some (default 0 (hf_quantity (ItemHash (Some 1) (Some "apple") (Some 8))) - 2))) ∧
    stored_quantity db' 1 =
      Some (default 0 (hf_quantity (ItemHash (Some 1) (Some "apple") (Some 8))) - 2) ∧
    item_name_to_id db' =
      item_name_to_id (run [POST_items "apple" 5; POST_items "apple" 3] empty_db).
Proof.
  split; [reflexivity|]. split; [exists 1; reflexivity|]. split; [simpl; lia|].
  split; [vm_compute; intuition discriminate|].
  apply (remove_quantity_decrements 1 2 (ItemHash (Some 1) (Some "apple") (Some 8))
           (run [POST_items "apple" 5; POST_items "apple" 3] empty_db)).
  - reflexivity.
  - exists 1; reflexivity.
  - simpl; lia.
  - vm_compute; intuition discriminate.
Defined.

Example remove_quantity_decrements_example :
  serve (DELETE_quantity 1 2) (run [POST_items "apple" 5; POST_items "apple" 3] empty_db) =
    (inr (ResultBody "2 of 8 items from (1, apple) removed."),
     Redis 1 {["apple" := 1]} {[1 := ItemHash (Some 1) (Some "apple") (Some 6)]}).
Proof. reflexivity. Qed.

(** ** C6: add-item with a quantity that is not positive *)

(** C6: add-item with a quantity of 0 or less answers 400 and leaves the
    whole store (counter, records and directory) as it was. *)
Theorem add_item_rejects_nonpositive name q db :
  q ≤ 0 →
  ∃ e, add_item name q db = (inl e, db) ∧ status_code e = 400 ∧
       status (add_item name q db).1 = 400 ∧
       (serve (POST_items name q) db).2 = db.
Proof.
  intros Hq. rewrite serve_state, (add_item_invalid name q db Hq).
  by eexists.
Qed.

Lemma add_item_rejects_nonpositive_witness :
  0 ≤ 0 ∧
  ∃ e, add_item "apple" 0 (run [POST_items "apple" 5] empty_db)
         = (inl e, run [POST_items "apple" 5] empty_db) ∧
       status_code e = 400 ∧
       status (add_item "apple" 0 (run [POST_items "apple" 5] empty_db)).1 = 400 ∧
       (serve (POST_items "apple" 0) (run [POST_items "apple" 5] empty_db)).2
         = run [POST_items "apple" 5] empty_db.
Proof.
  split; [lia|].
  apply (add_item_rejects_nonpositive "apple" 0 (run [POST_items "apple" 5] empty_db)). lia.
Defined.

(** ** C7: issued ids *)

(** C7: whatever requests are served, deletions included, and from
    whatever store, the ids issued by the counter come out strictly
    increasing, each above the counter the run started from, so none is
    issued twice; delete-item and remove-quantity leave the counter as it
    is. *)
Theorem issued_ids_strictly_increasing rs db :
  StronglySorted Z.lt (issued_ids rs db) ∧
  Forall (λ i, item_ids db < i) (issued_ids rs db) ∧
  NoDup (issued_ids rs db) ∧
  (∀ id, item_ids (delete_item id db).2 = item_ids db) ∧
  (∀ id q, item_ids (remove_quantity id q db).2 = item_ids db).
Proof.
  assert (StronglySorted Z.lt (issued_ids rs db) ∧
          Forall (λ i, item_ids db < i) (issued_ids rs db)) as [Hsorted Hall].
  { revert db. induction rs as [|r rs IH]; intros db.
    { split; constructor. }
    destruct (IH (serve r db).2) as [IHs IHa]. cbn [issued_ids].
    pose proof (serve_counter_mono r db) as Hmono.
    destruct (newly_issued_cases r db) as [-> | [-> Hnext]]; cbn [app].
    - split; [done|]. eapply Forall_impl; [exact IHa|]. intros i Hi. cbn in Hi. lia.
    - rewrite Hnext in IHa. split.
      + by constructor.
      + constructor; [lia|]. eapply Forall_impl; [exact IHa|]. intros i Hi. cbn in Hi. lia. }
  repeat split; try done.
  - clear Hall. induction Hsorted as [|i l _ IH Hlt]; constructor; [|done].
    intros Hin. rewrite Forall_forall in Hlt. specialize (Hlt _ Hin). lia.
  - intros id. apply delete_item_counter.
  - intros id q. apply remove_quantity_counter.
Qed.

Example issued_ids_example :
  issued_ids [POST_items "apple" 5; POST_items "apple" 3; DELETE_item 1;
              POST_items "apple" 1; POST_items "pear" 0; POST_items "pear" 2;
              DELETE_quantity 3 2; POST_items "pear" 2] empty_db = [1; 2; 3; 4].
Proof. reflexivity. Qed.

(** ** C8: list-items and records with missing fields *)

(** C8: list-items always succeeds, without touching the store, and
    reports the directory entries one by one as the spec words it: an
    entry whose record has no name field contributes nothing (no reported
    item carries its id), and an entry whose record has a name but no
    quantity field is reported with quantity 0. *)
Theorem list_items_missing_fields db :
  ∃ items,
    list_items db = (inr items, db) ∧
    items = omap (spec_list_entry db) (map_to_list (item_name_to_id db)) ∧
    ∀ name id, item_name_to_id db !! name = Some id →
      (item_id_hash db !! id ≫= hf_item_name = None →
       ∀ p, p ∈ items → item_id p ≠ id) ∧
      (∀ nm, item_id_hash db !! id ≫= hf_item_name = Some nm →
             item_id_hash db !! id ≫= hf_quantity = None →
             mkItemPayload id nm 0 ∈ items) ∧
      (∀ nm q, item_id_hash db !! id ≫= hf_item_name = Some nm →
               item_id_hash db !! id ≫= hf_quantity = Some q →
               mkItemPayload id nm q ∈ items).
Proof.
  eexists. split; [apply list_items_spec|]. split; [done|].
  intros name id Hname. apply elem_of_map_to_list in Hname.
  assert (∀ p, spec_list_entry db (name, id) = Some p →
               p ∈ omap (spec_list_entry db) (map_to_list (item_name_to_id db))) as Hin.
  { intros p Hp. apply list_elem_of_omap. by exists (name, id). }
  repeat split.
  - intros Hnone p Hp Hid. apply list_elem_of_omap in Hp as ([name' id'] & _ & Hentry).
    unfold spec_list_entry in Hentry. cbn [snd] in Hentry.
    destruct (item_id_hash db !! id' ≫= hf_item_name) as [nm|] eqn:Hnm; [|done].
    injection Hentry as <-. cbn [item_id] in Hid. subst id'. congruence.
  - intros nm Hnm Hq. apply Hin. unfold spec_list_entry, stored_quantity. cbn [snd].
    by rewrite Hnm, Hq.
  - intros nm q Hnm Hq. apply Hin. unfold spec_list_entry, stored_quantity. cbn [snd].
    by rewrite Hnm, Hq.
Qed.

(** A store in which the record of pear lost its name and the record of
    fig its quantity: pear is left out, fig is listed with quantity 0. *)
Example list_items_example :
  list_items
    (Redis 3 {["apple" := 1; "pear" := 2; "fig" := 3]}
       {[1 := ItemHash (Some 1) (Some "apple") (Some 5);
         2 := ItemHash (Some 2) None (Some 4);
         3 := ItemHash (Some 3) (Some "fig") None]}) =
    (inr [mkItemPayload 1 "apple" 5; mkItemPayload 3 "fig" 0],
     Redis 3 {["apple" := 1; "pear" := 2; "fig" := 3]}
       {[1 := ItemHash (Some 1) (Some "apple") (Some 5);
         2 := ItemHash (Some 2) None (Some 4);
         3 := ItemHash (Some 3) (Some "fig") None]}).
Proof. vm_compute. reflexivity. Qed.

(** ** C9: delete-item *)

(** C9: in a reachable state, delete-item answers 404 exactly when the
    store has no record for the id (and then changes nothing); when the
    record exists, it removes the record and the directory entry of its
    name, so that get-item on the id answers 404 afterwards, and its
    message contains the id and the name. *)
Theorem delete_item_not_found_iff_absent id db :
  reachable db →
  (status (delete_item id db).1 = 404 ↔ item_id_hash db !! id = None) ∧
  (item_id_hash db !! id = None →
   delete_item id db = (inl (mkHTTPException 404 "Item not found."), db)) ∧
  (∀ h, item_id_hash db !! id = Some h →
     ∃ name msg db',
       hf_item_name h = Some name ∧
       item_name_to_id db !! name = Some id ∧
       delete_item id db = (inr msg, db') ∧
       msg = "Item (" +:+ pretty id +:+ ", " +:+ name +:+ ") deleted." ∧
       occurs_in (pretty id) msg ∧ occurs_in name msg ∧
       item_id_hash db' !! id = None ∧
       item_name_to_id db' !! name = None ∧
       list_item id db' = (inl (mkHTTPException 404 "Item not found."), db')).
Proof.
  intros Hreach. pose proof (reachable_consistent _ Hreach) as Hc.
  assert (∀ h, item_id_hash db !! id = Some h →
     ∃ name, hf_item_name h = Some name ∧ item_name_to_id db !! name = Some id ∧
       delete_item id db =
         (inr ("Item (" +:+ pretty id +:+ ", " +:+ name +:+ ") deleted."),
          Redis (item_ids db) (delete name (item_name_to_id db))
                (delete id (item_id_hash db)))) as Hpresent.
  { intros h Hh.
    destruct (consistent_record _ Hc _ _ Hh) as (_ & Hid & name & q & Hnm & _ & _ & Hd).
    exists name. rewrite (delete_item_present id h) by (done || by rewrite Hid).
    by rewrite Hnm. }
  repeat split.
  - destruct (item_id_hash db !! id) as [h|] eqn:Hh; [|done].
    destruct (Hpresent h eq_refl) as (name & _ & _ & ->). cbn. lia.
  - intros Hnone. by rewrite delete_item_absent.
  - intros Hnone. by apply delete_item_absent.
  - intros h Hh. destruct (Hpresent h Hh) as (name & Hnm & Hd & Hdel).
    eexists name, _, _. split; [done|]. split; [done|]. split; [exact Hdel|].
    split; [done|]. cbn [item_id_hash item_name_to_id].
    assert (delete id (item_id_hash db) !! id = None) as Hgone by apply lookup_delete_eq.
    repeat split.
    + apply occurs_in_middle.
    + apply occurs_in_app_r, occurs_in_app_r, occurs_in_middle.
    + done.
    + apply lookup_delete_eq.
    + by apply list_item_absent.
Qed.

Lemma delete_item_not_found_iff_absent_witness :
  reachable (run [POST_items "apple" 5] empty_db) ∧
  (status (delete_item 1 (run [POST_items "apple" 5] empty_db)).1 = 404 ↔
   item_id_hash (run [POST_items "apple" 5] empty_db) !! 1 = None) ∧
  (item_id_hash (run [POST_items "apple" 5] empty_db) !! 1 = None →
   delete_item 1 (run [POST_items "apple" 5] empty_db) =
     (inl (mkHTTPException 404 "Item not found."), run [POST_items "apple" 5] empty_db)) ∧
  (∀ h, item_id_hash (run [POST_items "apple" 5] empty_db) !! 1 = Some h →
     ∃ name msg db',
       hf_item_name h = Some name ∧
       item_name_to_id (run [POST_items "apple" 5] empty_db) !! name = Some 1 ∧
       delete_item 1 (run [POST_items "apple" 5] empty_db) = (inr msg, db') ∧
       msg = "Item (" +:+ pretty 1 +:+ ", " +:+ name +:+ ") deleted." ∧
       occurs_in (pretty 1) msg ∧ occurs_in name msg ∧
       item_id_hash db' !! 1 = None ∧
       item_name_to_id db' !! name = None ∧
       list_item 1 db' = (inl (mkHTTPException 404 "Item not found."), db')).
Proof.
  split; [apply (reachable_run [POST_items "apple" 5] empty_db reachable_empty)|].
  apply (delete_item_not_found_iff_absent 1 (run [POST_items "apple" 5] empty_db)).
  apply (reachable_run [POST_items "apple" 5] empty_db reachable_empty).
Defined.

Example delete_item_example :
  serve (DELETE_item 1) (run [POST_items "apple" 5] empty_db) =
    (inr (ResultBody "Item (1, apple) deleted."), Redis 1 ∅ ∅).
Proof. reflexivity. Qed.

Example delete_item_absent_example :
  serve (DELETE_item 7) (run [POST_items "apple" 5] empty_db) =
    (inl (mkHTTPException 404 "Item not found."), run [POST_items "apple" 5] empty_db).
Proof. reflexivity. Qed.

(** ** C10: remove-quantity does not check the sign of the amount *)

(** C10, as stated, fails: [HINCRBY] works on signed 64-bit integers. On
    the store with 5 apples, [DELETE /items/1/-9223372036854775808] has an
    amount below 0, the handler asks the store to add 2^63, which is not
    a signed 64-bit integer: the store refuses, the request is answered
    with status 500 and the stored quantity stays 5. *)
Lemma remove_quantity_refuses_least_amount :
  item_id_hash (run [POST_items "apple" 5] empty_db) !! 1
    = Some (ItemHash (Some 1) (Some "apple") (Some 5)) ∧
  -9223372036854775808 < 0 ∧
  remove_quantity 1 (-9223372036854775808) (run [POST_items "apple" 5] empty_db)
    = (inl internal_server_error, run [POST_items "apple" 5] empty_db) ∧
  status (remove_quantity 1 (-9223372036854775808) (run [POST_items "apple" 5] empty_db)).1
    = 500 ∧
  stored_quantity
    (remove_quantity 1 (-9223372036854775808) (run [POST_items "apple" 5] empty_db)).2 1
    = Some 5.
Proof. repeat split; reflexivity. Qed.

(** C10, amended: remove-quantity does not check the sign of its amount:
    when the record of id exists with a quantity c above 0, the amount is
    below 0 and c + |amount| is at most 2^63 - 1, remove-quantity succeeds
    (status 200) and the stored quantity grows to c + |amount|. *)
Theorem remove_quantity_negative_amount id amount c h db :
  item_id_hash db !! id = Some h → is_Some (hf_item_id h) →
  hf_quantity h = Some c → 0 < c → amount < 0 →
  c + Z.abs amount ≤ int64_max →
  ∃ msg db',
    remove_quantity id amount db = (inr msg, db') ∧
    status (remove_quantity id amount db).1 = 200 ∧
    stored_quantity db' id = Some (c + Z.abs amount) ∧
    c < c + Z.abs amount.
Proof.
  intros Hh Hid Hq Hc Hamount Hfit.
  assert (hincrby_accepts (hf_quantity h) (- amount)) as Hacc.
  { rewrite Hq. unfold hincrby_accepts, in_int64, int64_min, int64_max in *.
    cbn [default from_option Datatypes.id]. lia. }
  rewrite (remove_quantity_some id amount h) by (done || rewrite Hq; simpl; lia).
  eexists _, _. split; [done|]. unfold stored_quantity.
  cbn [item_id_hash fst status]. rewrite lookup_insert_eq, Hq. cbn.
  repeat split; try lia. f_equal. lia.
Qed.

Lemma remove_quantity_negative_amount_witness :
  item_id_hash (run [POST_items "apple" 5] empty_db) !! 1
    = Some (ItemHash (Some 1) (Some "apple") (Some 5)) ∧
  is_Some (hf_item_id (ItemHash (Some 1) (Some "apple") (Some 5))) ∧
  hf_quantity (ItemHash (Some 1) (Some "apple") (Some 5)) = Some 5 ∧
  0 < 5 ∧ -3 < 0 ∧ 5 + Z.abs (-3) ≤ int64_max ∧
  ∃ msg db',
    remove_quantity 1 (-3) (run [POST_items "apple" 5] empty_db) = (inr msg, db') ∧
    status (remove_quantity 1 (-3) (run [POST_items "apple" 5] empty_db)).1 = 200 ∧
    stored_quantity db' 1 = Some (5 + Z.abs (-3)) ∧
    5 < 5 + Z.abs (-3).
Proof.
  split; [reflexivity|]. split; [exists 1; reflexivity|]. split; [reflexivity|].
  split; [lia|]. split; [lia|]. split; [vm_compute; discriminate|].
  apply (remove_quantity_negative_amount 1 (-3) 5 (ItemHash (Some 1) (Some "apple") (Some 5))
           (run [POST_items "apple" 5] empty_db)).
  - reflexivity.
  - exists 1; reflexivity.
  - reflexivity.
  - lia.
  - lia.
  - vm_compute; discriminate.
Defined.

Example remove_quantity_negative_example :
  serve (DELETE_quantity 1 (-3)) (run [POST_items "apple" 5] empty_db) =
    (inr (ResultBody "-3 of 5 items from (1, apple) removed."),
     Redis 1 {["apple" := 1]} {[1 := ItemHash (Some 1) (Some "apple") (Some 8)]}).
Proof. reflexivity. Qed.

(** * Further properties of the handlers *)

(** ** The handlers on a consistent store, case by case *)

Lemma consistent_lookup id h db :
  consistent db → item_id_hash db !! id = Some h →
  ∃ name c, h = ItemHash (Some id) (Some name) (Some c) ∧ 0 < c ∧
            item_name_to_id db !! name = Some id ∧ id ≤ item_ids db.
Proof.
  intros Hc Hh.
  destruct (consistent_record _ Hc _ _ Hh) as (Hle & Hid & name & c & Hnm & Hq & Hpos & Hd).
  exists name, c. destruct h as [i n q]. cbn in *. by subst.
Qed.

Lemma consistent_resolve name id db :
  consistent db → item_name_to_id db !! name = Some id →
  ∃ c, item_id_hash db !! id = Some (ItemHash (Some id) (Some name) (Some c)) ∧ 0 < c.
Proof.
  intros Hc Hname. destruct (consistent_directory _ Hc _ _ Hname) as (h & Hh & Hnm).
  destruct (consistent_lookup _ _ _ Hc Hh) as (name' & c & -> & Hpos & _ & _).
  cbn in Hnm. injection Hnm as ->. by exists c.
Qed.

Lemma add_item_cases name q db :
  consistent db →
  (q ≤ 0 ∧
   add_item name q db = (inl (mkHTTPException 400 "Quantity must be greater than 0."), db)) ∨
  (0 < q ∧ ∃ id c,
     item_name_to_id db !! name = Some id ∧
     item_id_hash db !! id = Some (ItemHash (Some id) (Some name) (Some c)) ∧ 0 < c ∧
     c + q ≤ int64_max ∧
     add_item name q db =
       (inr (mkItemPayload id name q),
        Redis (item_ids db) (item_name_to_id db)
              (<[id := ItemHash (Some id) (Some name) (Some (c + q))]> (item_id_hash db)))) ∨
  (0 < q ∧ item_name_to_id db !! name = None ∧
   add_item name q db =
     (inr (mkItemPayload (item_ids db + 1) name q),
      Redis (item_ids db + 1) (<[name := item_ids db + 1]> (item_name_to_id db))
        (<[item_ids db + 1 := ItemHash (Some (item_ids db + 1)) (Some name) (Some q)]>
           (item_id_hash db)))) ∨
  (0 < q ∧ ∃ id c,
     item_name_to_id db !! name = Some id ∧
     item_id_hash db !! id = Some (ItemHash (Some id) (Some name) (Some c)) ∧ 0 < c ∧
     int64_max < c + q ∧
     add_item name q db = (inl internal_server_error, db)).
Proof.
  intros Hc. destruct (decide (q ≤ 0)) as [Hq|Hq].
  { left. split; [done|]. by apply add_item_invalid. }
  right. destruct (item_name_to_id db !! name) as [id|] eqn:Hname.
  - destruct (consistent_resolve _ _ _ Hc Hname) as (c & Hh & Hpos).
    assert (item_id_hash db !! id ≫= hf_quantity = Some c) as Hst by by rewrite Hh.
    destruct (decide (c + q ≤ int64_max)) as [Hfit|Hfit].
    + left. split; [lia|]. exists id, c. repeat split; try done.
      rewrite (add_item_existing name q id); [by rewrite Hh | lia | done |].
      rewrite Hst. apply hincrby_accepts_positive; [done | lia | done].
    + right; right. split; [lia|]. exists id, c. repeat split; try done; try lia.
      apply (add_item_refused name q id); [lia | done |].
      rewrite Hst. rewrite hincrby_accepts_positive by lia. done.
  - right; left. split; [lia|]. split; [done|]. apply add_item_new; [lia | done].
Qed.

Lemma delete_item_cases id db :
  consistent db →
  (item_id_hash db !! id = None ∧
   delete_item id db = (inl (mkHTTPException 404 "Item not found."), db)) ∨
  (∃ name c,
     item_id_hash db !! id = Some (ItemHash (Some id) (Some name) (Some c)) ∧
     item_name_to_id db !! name = Some id ∧
     delete_item id db =
       (inr ("Item (" +:+ pretty id +:+ ", " +:+ name +:+ ") deleted."),
        Redis (item_ids db) (delete name (item_name_to_id db)) (delete id (item_id_hash db)))).
Proof.
  intros Hc. destruct (item_id_hash db !! id) as [h|] eqn:Hh.
  - right. destruct (consistent_lookup _ _ _ Hc Hh) as (name & c & -> & _ & Hd & _).
    exists name, c. repeat split; try done.
    by rewrite (delete_item_present id _ db Hh) by by eexists.
  - left. split; [done|]. by apply delete_item_absent.
Qed.

Lemma remove_quantity_cases id q db :
  consistent db →
  (item_id_hash db !! id = None ∧
   remove_quantity id q db = (inl (mkHTTPException 404 "Item not found."), db)) ∨
  (∃ name c,
     item_id_hash db !! id = Some (ItemHash (Some id) (Some name) (Some c)) ∧
     item_name_to_id db !! name = Some id ∧ 0 < c ∧ c ≤ q ∧
     remove_quantity id q db =
       (inr ("Item (" +:+ pretty id +:+ ", " +:+ name +:+ ") deleted."),
        Redis (item_ids db) (delete name (item_name_to_id db)) (delete id (item_id_hash db)))) ∨
  (∃ name c,
     item_id_hash db !! id = Some (ItemHash (Some id) (Some name) (Some c)) ∧
     item_name_to_id db !! name = Some id ∧ 0 < c ∧ q < c ∧
     hincrby_accepts (Some c) (- q) ∧
     remove_quantity id q db =
       (inr (pretty q +:+ " of " +:+ pretty c +:+ " items from ("
             +:+ pretty id +:+ ", " +:+ name +:+ ") removed."),
        Redis (item_ids db) (item_name_to_id db)
              (<[id := ItemHash (Some id) (Some name) (Some (c - q))]> (item_id_hash db)))) ∨
  (∃ name c,
     item_id_hash db !! id = Some (ItemHash (Some id) (Some name) (Some c)) ∧
     item_name_to_id db !! name = Some id ∧ 0 < c ∧ q < c ∧
     ¬ hincrby_accepts (Some c) (- q) ∧
     remove_quantity id q db = (inl internal_server_error, db)).
Proof.
  intros Hc. destruct (item_id_hash db !! id) as [h|] eqn:Hh.
  - right. destruct (consistent_lookup _ _ _ Hc Hh) as (name & c & -> & Hpos & Hd & _).
    destruct (decide (c ≤ q)) as [Hle|Hlt].
    + left. exists name, c. repeat split; try done.
      by rewrite (remove_quantity_all id q _ db Hh) by (done || by eexists).
    + right. destruct (decide (hincrby_accepts (Some c) (- q))) as [Hacc|Hacc].
      * left. exists name, c.
        split; [done|]. split; [done|]. split; [done|]. split; [lia|]. split; [done|].
        apply (remove_quantity_some id q _ db Hh); [by eexists | simpl; lia | done].
      * right. exists name, c.
        split; [done|]. split; [done|]. split; [done|]. split; [lia|]. split; [done|].
        apply (remove_quantity_refused id q _ db Hh); [by eexists | simpl; lia | done].
  - left. split; [done|]. by apply remove_quantity_absent.
Qed.

(** A record without its [item_id] field is not found by the handlers
    that test [hexists(..., "item_id")]. *)
Lemma delete_item_no_item_id id h db :
  item_id_hash db !! id = Some h → hf_item_id h = None →
  delete_item id db = (inl (mkHTTPException 404 "Item not found."), db).
Proof.
  intros Hh Hi. unfold delete_item, mbind, handler_bind, hexists_item_id.
  rewrite Hh, Hi. by rewrite bool_decide_eq_false_2 by by intros [].
Qed.


Lemma list_item_no_item_id id h db :
  item_id_hash db !! id = Some h → hf_item_id h = None →
  list_item id db = (inl (mkHTTPException 404 "Item not found."), db).
Proof.
  intros Hh Hi. unfold list_item, mbind, handler_bind, hexists_item_id.
  rewrite Hh, Hi. by rewrite bool_decide_eq_false_2 by by intros [].
Qed.

Lemma list_item_present id h db :
  item_id_hash db !! id = Some h → is_Some (hf_item_id h) →
  list_item id db = (inr h, db).
Proof.
  intros Hh Hi. unfold list_item, mbind, handler_bind, hexists_item_id, hgetall_item.
  rewrite Hh, bool_decide_eq_true_2 by done. cbn [negb]. by rewrite Hh.
Qed.

Lemma reachable_ids_positive db :
  reachable db →
  0 ≤ item_ids db ∧ ∀ id h, item_id_hash db !! id = Some h → 0 < id.
Proof.
  induction 1 as [|r db Hreach [IHc IHr]].
  { split; [done|]. intros id h. cbn. by rewrite lookup_empty. }
  pose proof (reachable_consistent _ Hreach) as Hc.
  rewrite serve_state. destruct r as [name q|id| |id|id q]; try done.
  - destruct (add_item_cases name q db Hc)
      as [[_ ->] | [(_ & id & c & _ & Hh & _ & _ & ->) | [(_ & _ & ->)
         | (_ & id & c & _ & _ & _ & _ & ->)]]]; cbn; [done| | |done].
    + split; [done|]. intros id' h'. rewrite lookup_insert. case_decide; [|apply IHr].
      intros _. subst id'. by eapply IHr.
    + split; [lia|]. intros id' h'. rewrite lookup_insert. case_decide; [|apply IHr].
      intros _. lia.
  - destruct (delete_item_cases id db Hc) as [[_ ->] | (name & c & _ & _ & ->)]; cbn; [done|].
    split; [done|]. intros id' h'. rewrite lookup_delete. case_decide; [done|apply IHr].
  - destruct (remove_quantity_cases id q db Hc)
      as [[_ ->] | [(name & c & _ & _ & _ & _ & ->) | [(name & c & Hh & _ & _ & _ & _ & ->)
         | (name & c & _ & _ & _ & _ & _ & ->)]]];
      cbn; [done| | |done].
    + split; [done|]. intros id' h'. rewrite lookup_delete. case_decide; [done|apply IHr].
    + split; [done|]. intros id' h'. rewrite lookup_insert. case_decide; [|apply IHr].
      intros _. subst id'. by eapply IHr.
Qed.

(** ** Ids that were never issued *)

(** X1: in a reachable store, an id that the counter has not reached (or
    that is not positive) has no record: get-item, delete-item and
    remove-quantity on it all answer 404 and leave the store as it is. *)
Theorem unissued_id_not_found id q db :
  reachable db → id ≤ 0 ∨ item_ids db < id →
  item_id_hash db !! id = None ∧
  list_item id db = (inl (mkHTTPException 404 "Item not found."), db) ∧
  delete_item id db = (inl (mkHTTPException 404 "Item not found."), db) ∧
  remove_quantity id q db = (inl (mkHTTPException 404 "Item not found."), db).
Proof.
  intros Hreach Hid.
  assert (item_id_hash db !! id = None) as Hnone.
  { destruct (item_id_hash db !! id) as [h|] eqn:Hh; [exfalso|done].
    destruct (reachable_ids_positive _ Hreach) as [_ Hpos]. specialize (Hpos _ _ Hh).
    destruct (consistent_lookup _ _ _ (reachable_consistent _ Hreach) Hh)
      as (_ & _ & _ & _ & _ & Hle). lia. }
  repeat split; [done | by apply list_item_absent | by apply delete_item_absent
                | by apply remove_quantity_absent].
Qed.

Lemma unissued_id_not_found_witness :
  reachable (run [POST_items "apple" 5] empty_db) ∧
  (2 ≤ 0 ∨ item_ids (run [POST_items "apple" 5] empty_db) < 2) ∧
  item_id_hash (run [POST_items "apple" 5] empty_db) !! 2 = None ∧
  list_item 2 (run [POST_items "apple" 5] empty_db) =
    (inl (mkHTTPException 404 "Item not found."), run [POST_items "apple" 5] empty_db) ∧
  delete_item 2 (run [POST_items "apple" 5] empty_db) =
    (inl (mkHTTPException 404 "Item not found."), run [POST_items "apple" 5] empty_db) ∧
  remove_quantity 2 1 (run [POST_items "apple" 5] empty_db) =
    (inl (mkHTTPException 404 "Item not found."), run [POST_items "apple" 5] empty_db).
Proof.
  split; [apply (reachable_run [POST_items "apple" 5] empty_db reachable_empty)|].
  split; [right; reflexivity|].
  apply (unissued_id_not_found 2 1 (run [POST_items "apple" 5] empty_db)).
  - apply (reachable_run [POST_items "apple" 5] empty_db reachable_empty).
  - right; reflexivity.
Defined.

(** ** Add, then get *)

(** X2: in a reachable store, after an add-item with a quantity above 0
    for a name that is not stored, or whose stored quantity plus the one
    added is at most 2^63 - 1, get-item on the id of the answer returns
    the full record: that id, the name, and as quantity what was stored
    for the name before (0 if nothing) plus the quantity added; the read
    leaves the store alone. *)
Theorem add_item_then_list_item name q db :
  reachable db → 0 < q →
  item_name_to_id db !! name = None ∨ default 0 (name_quantity db name) + q ≤ int64_max →
  ∃ p db',
    add_item name q db = (inr p, db') ∧
    list_item (item_id p) db' =
      (inr (ItemHash (Some (item_id p)) (Some name)
                     (Some (default 0 (name_quantity db name) + q))), db').
Proof.
  intros Hreach Hq Hfit. pose proof (reachable_consistent _ Hreach) as Hc.
  unfold name_quantity, stored_quantity in *.
  destruct (add_item_cases name q db Hc)
    as [[? _] | [(_ & id & c & Hname & Hh & _ & _ & ->) | [(_ & Hname & ->)
       | (_ & id & c & Hname & Hh & _ & Hover & _)]]]; [lia| | |].
  - eexists _, _. split; [done|]. cbn [item_id]. rewrite Hname. cbn [mbind option_bind].
    rewrite Hh. cbn [mbind option_bind hf_quantity default from_option Datatypes.id].
    apply list_item_present; [apply lookup_insert_eq | by eexists].
  - eexists _, _. split; [done|]. cbn [item_id]. rewrite Hname.
    cbn [mbind option_bind default from_option Datatypes.id].
    apply list_item_present; [apply lookup_insert_eq | by eexists].
  - exfalso. destruct Hfit as [Hnone|Hsum]; [congruence|].
    rewrite Hname in Hsum. cbn [mbind option_bind] in Hsum. rewrite Hh in Hsum.
    cbn in Hsum. lia.
Qed.

Lemma add_item_then_list_item_witness :
  reachable (run [POST_items "apple" 5] empty_db) ∧ 0 < 3 ∧
  (item_name_to_id (run [POST_items "apple" 5] empty_db) !! "apple" = None ∨
   default 0 (name_quantity (run [POST_items "apple" 5] empty_db) "apple") + 3 ≤ int64_max) ∧
  ∃ p db',
    add_item "apple" 3 (run [POST_items "apple" 5] empty_db) = (inr p, db') ∧
    list_item (item_id p) db' =
      (inr (ItemHash (Some (item_id p)) (Some "apple")
              (Some (default 0 (name_quantity (run [POST_items "apple" 5] empty_db) "apple") + 3))),
       db').
Proof.
  split; [apply (reachable_run [POST_items "apple" 5] empty_db reachable_empty)|].
  split; [lia|]. split; [right; vm_compute; discriminate|].
  apply (add_item_then_list_item "apple" 3 (run [POST_items "apple" 5] empty_db)).
  - apply (reachable_run [POST_items "apple" 5] empty_db reachable_empty).
  - lia.
  - right; vm_compute; discriminate.
Defined.

(** ** The directory and the records agree *)

(** X3: in a reachable store the directory and the records describe the
    same items: the directory resolves a name to an id exactly when the
    record of that id exists and carries that id and that name, and no two
    names resolve to the same id. *)
Theorem directory_records_agree db :
  reachable db →
  (∀ name id,
     item_name_to_id db !! name = Some id ↔
     ∃ c, item_id_hash db !! id = Some (ItemHash (Some id) (Some name) (Some c))) ∧
  (∀ id h, item_id_hash db !! id = Some h →
     ∃ name c, h = ItemHash (Some id) (Some name) (Some c)) ∧
  (∀ name1 name2 id,
     item_name_to_id db !! name1 = Some id → item_name_to_id db !! name2 = Some id →
     name1 = name2).
Proof.
  intros Hreach. pose proof (reachable_consistent _ Hreach) as Hc. split; [|split].
  - intros name id. split.
    + intros Hname. destruct (consistent_resolve _ _ _ Hc Hname) as (c & Hh & _). by exists c.
    + intros (c & Hh).
      destruct (consistent_lookup _ _ _ Hc Hh) as (name' & c' & [= <- <-] & _ & Hd & _). done.
  - intros id h Hh.
    destruct (consistent_lookup _ _ _ Hc Hh) as (name & c & -> & _). by exists name, c.
  - intros name1 name2 id Hn1 Hn2.
    destruct (consistent_resolve _ _ _ Hc Hn1) as (c1 & Hh1 & _).
    destruct (consistent_resolve _ _ _ Hc Hn2) as (c2 & Hh2 & _). congruence.
Qed.

Lemma directory_records_agree_witness :
  reachable (run [POST_items "apple" 5; POST_items "pear" 2; DELETE_item 1] empty_db) ∧
  (∀ name id,
     item_name_to_id (run [POST_items "apple" 5; POST_items "pear" 2; DELETE_item 1] empty_db)
       !! name = Some id ↔
     ∃ c, item_id_hash (run [POST_items "apple" 5; POST_items "pear" 2; DELETE_item 1] empty_db)
            !! id = Some (ItemHash (Some id) (Some name) (Some c))) ∧
  (∀ id h,
     item_id_hash (run [POST_items "apple" 5; POST_items "pear" 2; DELETE_item 1] empty_db)
       !! id = Some h →
     ∃ name c, h = ItemHash (Some id) (Some name) (Some c)) ∧
  (∀ name1 name2 id,
     item_name_to_id (run [POST_items "apple" 5; POST_items "pear" 2; DELETE_item 1] empty_db)
       !! name1 = Some id →
     item_name_to_id (run [POST_items "apple" 5; POST_items "pear" 2; DELETE_item 1] empty_db)
       !! name2 = Some id →
     name1 = name2).
Proof.
  split.
  - apply (reachable_run [POST_items "apple" 5; POST_items "pear" 2; DELETE_item 1]
             empty_db reachable_empty).
  - apply (directory_records_agree
             (run [POST_items "apple" 5; POST_items "pear" 2; DELETE_item 1] empty_db)).
    apply (reachable_run [POST_items "apple" 5; POST_items "pear" 2; DELETE_item 1]
             empty_db reachable_empty).
Defined.

(** X4: in a reachable store the counter is not negative and every record
    sits at an id between 1 and the counter: records only exist at ids the
    counter has issued. *)
Theorem record_ids_in_range db :
  reachable db →
  0 ≤ item_ids db ∧
  (∀ id, is_Some (item_id_hash db !! id) → 1 ≤ id ≤ item_ids db) ∧
  (∀ name id, item_name_to_id db !! name = Some id → 1 ≤ id ≤ item_ids db).
Proof.
  intros Hreach. pose proof (reachable_consistent _ Hreach) as Hc.
  destruct (reachable_ids_positive _ Hreach) as [Hcnt Hpos].
  assert (∀ id, is_Some (item_id_hash db !! id) → 1 ≤ id ≤ item_ids db) as Hrange.
  { intros id [h Hh]. specialize (Hpos _ _ Hh).
    destruct (consistent_lookup _ _ _ Hc Hh) as (_ & _ & _ & _ & _ & Hle). lia. }
  split; [done|]. split; [done|]. intros name id Hname.
  destruct (consistent_resolve _ _ _ Hc Hname) as (c & Hh & _). apply Hrange. by eexists.
Qed.

Lemma record_ids_in_range_witness :
  reachable (run [POST_items "apple" 5; POST_items "pear" 2; DELETE_item 1] empty_db) ∧
  0 ≤ item_ids (run [POST_items "apple" 5; POST_items "pear" 2; DELETE_item 1] empty_db) ∧
  (∀ id,
     is_Some (item_id_hash
                (run [POST_items "apple" 5; POST_items "pear" 2; DELETE_item 1] empty_db) !! id) →
     1 ≤ id ≤ item_ids (run [POST_items "apple" 5; POST_items "pear" 2; DELETE_item 1] empty_db)) ∧
  (∀ name id,
     item_name_to_id (run [POST_items "apple" 5; POST_items "pear" 2; DELETE_item 1] empty_db)
       !! name = Some id →
     1 ≤ id ≤ item_ids (run [POST_items "apple" 5; POST_items "pear" 2; DELETE_item 1] empty_db)).
Proof.
  split.
  - apply (reachable_run [POST_items "apple" 5; POST_items "pear" 2; DELETE_item 1]
             empty_db reachable_empty).
  - apply (record_ids_in_range
             (run [POST_items "apple" 5; POST_items "pear" 2; DELETE_item 1] empty_db)).
    apply (reachable_run [POST_items "apple" 5; POST_items "pear" 2; DELETE_item 1]
             empty_db reachable_empty).
Defined.

(** ** list-items on a reachable store *)

Lemma omap_entries_projections (f : string * Z → option ItemPayload) (l : list (string * Z)) :
  (∀ e, e ∈ l → ∃ p, f e = Some p ∧ item_name p = e.1 ∧ item_id p = e.2) →
  item_name <$> omap f l = l.*1 ∧ item_id <$> omap f l = l.*2.
Proof.
  induction l as [|e l IH]; intros Hall; [done|].
  destruct (Hall e) as (p & Hp & Hn & Hi); [by left|].
  destruct IH as [IHn IHi]; [intros e' He'; apply Hall; by right|].
  cbn [omap list_omap]. rewrite Hp. cbn [fmap list_fmap]. split; f_equal; done.
Qed.

(** X5: in a reachable store list-items skips nothing: it reports one item
    per directory entry, in the directory's order, with the entry's name
    and id, so no name and no id is reported twice; and an item is
    reported exactly when the record with that id, name and quantity is in
    the store, so every reported quantity is the stored one and above 0. *)
Theorem list_items_reports_all_records db :
  reachable db →
  ∃ items,
    list_items db = (inr items, db) ∧
    item_name <$> items = (map_to_list (item_name_to_id db)).*1 ∧
    item_id <$> items = (map_to_list (item_name_to_id db)).*2 ∧
    length items = size (item_name_to_id db) ∧
    NoDup (item_name <$> items) ∧
    NoDup (item_id <$> items) ∧
    (∀ p, p ∈ items ↔
          item_id_hash db !! item_id p =
            Some (ItemHash (Some (item_id p)) (Some (item_name p)) (Some (quantity p)))) ∧
    (∀ p, p ∈ items → 0 < quantity p).
Proof.
  intros Hreach. pose proof (reachable_consistent _ Hreach) as Hc.
  eexists. split; [apply list_items_spec|].
  set (l := map_to_list (item_name_to_id db)).
  assert (∀ name id, (name, id) ∈ l →
            ∃ c, spec_list_entry db (name, id) = Some (mkItemPayload id name c) ∧ 0 < c ∧
                 item_id_hash db !! id = Some (ItemHash (Some id) (Some name) (Some c)))
    as Hentry.
  { intros name id Hin. apply elem_of_map_to_list in Hin.
    destruct (consistent_resolve _ _ _ Hc Hin) as (c & Hh & Hpos). exists c.
    unfold spec_list_entry, stored_quantity. cbn [snd]. by rewrite Hh. }
  destruct (omap_entries_projections (spec_list_entry db) l) as [Hnames Hids].
  { intros [name id] Hin. destruct (Hentry _ _ Hin) as (c & -> & _). by eexists. }
  assert (∀ p, p ∈ omap (spec_list_entry db) l ↔
               item_id_hash db !! item_id p =
                 Some (ItemHash (Some (item_id p)) (Some (item_name p)) (Some (quantity p))))
    as Hmem.
  { intros p. rewrite list_elem_of_omap. split.
    - intros ([name id] & Hin & Hp). destruct (Hentry _ _ Hin) as (c & Hp' & _ & Hh).
      rewrite Hp' in Hp. injection Hp as <-. done.
    - intros Hh. destruct (consistent_lookup _ _ _ Hc Hh) as (name & c & [= <- <-] & _ & Hd & _).
      exists (item_name p, item_id p). split; [by apply elem_of_map_to_list|].
      unfold spec_list_entry, stored_quantity. cbn [snd]. rewrite Hh. by destruct p. }
  split; [done|]. split; [done|]. split.
  { rewrite <- (length_fmap item_name), Hnames, length_fmap. apply length_map_to_list. }
  split; [rewrite Hnames; apply NoDup_fst_map_to_list|]. split.
  { rewrite Hids. apply NoDup_fmap_2_strong; [|apply NoDup_map_to_list].
    intros [n1 i1] [n2 i2] Hin1%elem_of_map_to_list Hin2%elem_of_map_to_list Heq.
    cbn in Heq. subst i2.
    destruct (consistent_resolve _ _ _ Hc Hin1) as (c1 & Hh1 & _).
    destruct (consistent_resolve _ _ _ Hc Hin2) as (c2 & Hh2 & _). congruence. }
  split; [done|].
  intros p Hp%Hmem. by destruct (consistent_lookup _ _ _ Hc Hp) as (name & c & [= <- <-] & ? & _).
Qed.

Lemma list_items_reports_all_records_witness :
  reachable (run [POST_items "apple" 5; POST_items "pear" 2; POST_items "apple" 3] empty_db) ∧
  ∃ items,
    list_items (run [POST_items "apple" 5; POST_items "pear" 2; POST_items "apple" 3] empty_db)
      = (inr items, run [POST_items "apple" 5; POST_items "pear" 2; POST_items "apple" 3] empty_db) ∧
    item_name <$> items =
      (map_to_list (item_name_to_id
         (run [POST_items "apple" 5; POST_items "pear" 2; POST_items "apple" 3] empty_db))).*1 ∧
    item_id <$> items =
      (map_to_list (item_name_to_id
         (run [POST_items "apple" 5; POST_items "pear" 2; POST_items "apple" 3] empty_db))).*2 ∧
    length items =
      size (item_name_to_id
              (run [POST_items "apple" 5; POST_items "pear" 2; POST_items "apple" 3] empty_db)) ∧
    NoDup (item_name <$> items) ∧
    NoDup (item_id <$> items) ∧
    (∀ p, p ∈ items ↔
          item_id_hash
            (run [POST_items "apple" 5; POST_items "pear" 2; POST_items "apple" 3] empty_db)
            !! item_id p =
            Some (ItemHash (Some (item_id p)) (Some (item_name p)) (Some (quantity p)))) ∧
    (∀ p, p ∈ items → 0 < quantity p).
Proof.
  split.
  - apply (reachable_run [POST_items "apple" 5; POST_items "pear" 2; POST_items "apple" 3]
             empty_db reachable_empty).
  - apply (list_items_reports_all_records
             (run [POST_items "apple" 5; POST_items "pear" 2; POST_items "apple" 3] empty_db)).
    apply (reachable_run [POST_items "apple" 5; POST_items "pear" 2; POST_items "apple" 3]
             empty_db reachable_empty).
Defined.

Example list_items_reachable_example :
  (list_items (run [POST_items "apple" 5; POST_items "pear" 2; POST_items "apple" 3] empty_db)).1
    = inr [mkItemPayload 1 "apple" 8; mkItemPayload 2 "pear" 2].
Proof. vm_compute. reflexivity. Qed.

Example list_items_empty_example : list_items empty_db = (inr [], empty_db).
Proof. reflexivity. Qed.

(** ** Requests touch one item only *)

(** X6: in a reachable store, add-item under one name leaves every other
    item alone: the directory resolves every other name as before, every
    record carrying another name is unchanged, and the quantity stored for
    every other name is what it was. *)
Theorem add_item_leaves_other_items name q db :
  reachable db →
  (∀ name', name' ≠ name →
     item_name_to_id (add_item name q db).2 !! name' = item_name_to_id db !! name' ∧
     name_quantity (add_item name q db).2 name' = name_quantity db name') ∧
  (∀ id h, item_id_hash db !! id = Some h → hf_item_name h ≠ Some name →
     item_id_hash (add_item name q db).2 !! id = Some h).
Proof.
  intros Hreach. pose proof (reachable_consistent _ Hreach) as Hc.
  assert (∀ id h, item_id_hash db !! id = Some h → hf_item_name h ≠ Some name →
            item_id_hash (add_item name q db).2 !! id = Some h) as Hrec.
  { intros id' h' Hh' Hne.
    destruct (consistent_lookup _ _ _ Hc Hh') as (name' & c' & -> & _ & _ & Hle).
    destruct (add_item_cases name q db Hc)
      as [[_ ->] | [(_ & id & c & _ & Hh & _ & _ & ->) | [(_ & _ & ->)
         | (_ & id & c & _ & _ & _ & _ & ->)]]]; cbn [snd item_id_hash];
      [done| | |done].
    - rewrite lookup_insert_ne; [done|]. intros ->. rewrite Hh in Hh'. by injection Hh' as <-.
    - rewrite lookup_insert_ne; [done|]. lia. }
  split; [|done]. intros name' Hne.
  assert (item_name_to_id (add_item name q db).2 !! name' = item_name_to_id db !! name') as Hdir.
  { destruct (add_item_cases name q db Hc)
      as [[_ ->] | [(_ & id & c & _ & _ & _ & _ & ->) | [(_ & _ & ->)
         | (_ & id & c & _ & _ & _ & _ & ->)]]]; cbn [snd item_name_to_id];
      [done|done| |done]. by rewrite lookup_insert_ne. }
  split; [done|]. unfold name_quantity. rewrite Hdir.
  destruct (item_name_to_id db !! name') as [id'|] eqn:Hname'; [|done].
  cbn [mbind option_bind]. unfold stored_quantity.
  destruct (consistent_resolve _ _ _ Hc Hname') as (c' & Hh' & _).
  rewrite (Hrec _ _ Hh'), Hh'; [done|]. cbn. congruence.
Qed.

Lemma add_item_leaves_other_items_witness :
  reachable (run [POST_items "apple" 5; POST_items "pear" 2] empty_db) ∧
  (∀ name', name' ≠ "apple" →
     item_name_to_id
       (add_item "apple" 3 (run [POST_items "apple" 5; POST_items "pear" 2] empty_db)).2 !! name'
       = item_name_to_id (run [POST_items "apple" 5; POST_items "pear" 2] empty_db) !! name' ∧
     name_quantity
       (add_item "apple" 3 (run [POST_items "apple" 5; POST_items "pear" 2] empty_db)).2 name'
       = name_quantity (run [POST_items "apple" 5; POST_items "pear" 2] empty_db) name') ∧
  (∀ id h,
     item_id_hash (run [POST_items "apple" 5; POST_items "pear" 2] empty_db) !! id = Some h →
     hf_item_name h ≠ Some "apple" →
     item_id_hash
       (add_item "apple" 3 (run [POST_items "apple" 5; POST_items "pear" 2] empty_db)).2 !! id
       = Some h).
Proof.
  split.
  - apply (reachable_run [POST_items "apple" 5; POST_items "pear" 2] empty_db reachable_empty).
  - apply (add_item_leaves_other_items "apple" 3
             (run [POST_items "apple" 5; POST_items "pear" 2] empty_db)).
    apply (reachable_run [POST_items "apple" 5; POST_items "pear" 2] empty_db reachable_empty).
Defined.

(** X7: in a reachable store, delete-item and remove-quantity on one id
    leave every other item alone: the record of every other id is
    unchanged, and every name that resolved to another id still resolves
    to it. *)
Theorem removal_leaves_other_items id q db db' :
  reachable db →
  db' = (delete_item id db).2 ∨ db' = (remove_quantity id q db).2 →
  (∀ id', id' ≠ id → item_id_hash db' !! id' = item_id_hash db !! id') ∧
  (∀ name' id', id' ≠ id → item_name_to_id db !! name' = Some id' →
     item_name_to_id db' !! name' = Some id').
Proof.
  intros Hreach Hdb'. pose proof (reachable_consistent _ Hreach) as Hc.
  assert (∀ name db0, item_name_to_id db !! name = Some id →
            db0 = Redis (item_ids db) (delete name (item_name_to_id db))
                        (delete id (item_id_hash db)) →
            (∀ id', id' ≠ id → item_id_hash db0 !! id' = item_id_hash db !! id') ∧
            (∀ name' id', id' ≠ id → item_name_to_id db !! name' = Some id' →
               item_name_to_id db0 !! name' = Some id')) as Hdrop.
  { intros name db0 Hname ->. cbn [item_id_hash item_name_to_id]. split.
    - intros id' Hne. by rewrite lookup_delete_ne.
    - intros name' id' Hne Hname'. rewrite lookup_delete_ne; [done|]. intros ->. congruence. }
  destruct Hdb' as [-> | ->].
  - destruct (delete_item_cases id db Hc) as [[_ ->] | (name & c & _ & Hname & ->)]; [done|].
    by apply (Hdrop name).
  - destruct (remove_quantity_cases id q db Hc)
      as [[_ ->] | [(name & c & _ & Hname & _ & _ & ->) | [(name & c & _ & _ & _ & _ & _ & ->)
         | (name & c & _ & _ & _ & _ & _ & ->)]]];
      [done| by apply (Hdrop name) | |done].
    cbn [snd item_id_hash item_name_to_id]. split; [|done].
    intros id' Hne. by rewrite lookup_insert_ne.
Qed.

Lemma removal_leaves_other_items_witness :
  reachable (run [POST_items "apple" 5; POST_items "pear" 2] empty_db) ∧
  ((delete_item 1 (run [POST_items "apple" 5; POST_items "pear" 2] empty_db)).2
     = (delete_item 1 (run [POST_items "apple" 5; POST_items "pear" 2] empty_db)).2 ∨
   (delete_item 1 (run [POST_items "apple" 5; POST_items "pear" 2] empty_db)).2
     = (remove_quantity 1 0 (run [POST_items "apple" 5; POST_items "pear" 2] empty_db)).2) ∧
  (∀ id', id' ≠ 1 →
     item_id_hash (delete_item 1 (run [POST_items "apple" 5; POST_items "pear" 2] empty_db)).2
       !! id'
     = item_id_hash (run [POST_items "apple" 5; POST_items "pear" 2] empty_db) !! id') ∧
  (∀ name' id', id' ≠ 1 →
     item_name_to_id (run [POST_items "apple" 5; POST_items "pear" 2] empty_db) !! name'
       = Some id' →
     item_name_to_id (delete_item 1 (run [POST_items "apple" 5; POST_items "pear" 2] empty_db)).2
       !! name' = Some id').
Proof.
  split; [apply (reachable_run [POST_items "apple" 5; POST_items "pear" 2] empty_db
                   reachable_empty)|].
  split; [left; reflexivity|].
  apply (removal_leaves_other_items 1 0
           (run [POST_items "apple" 5; POST_items "pear" 2] empty_db)
           (delete_item 1 (run [POST_items "apple" 5; POST_items "pear" 2] empty_db)).2).
  - apply (reachable_run [POST_items "apple" 5; POST_items "pear" 2] empty_db reachable_empty).
  - left; reflexivity.
Defined.

(** ** Requests that fail *)


(** ** How add-item and remove-quantity compose *)

(** X9: in a reachable store, remove-quantity with amount 0 on an existing
    record whose quantity is at most 2^63 - 1 succeeds and leaves the whole
    store exactly as it was. *)
Theorem remove_quantity_zero_is_noop id h db :
  reachable db → item_id_hash db !! id = Some h →
  default 0 (hf_quantity h) ≤ int64_max →
  ∃ msg, remove_quantity id 0 db = (inr msg, db).
Proof.
  intros Hreach Hh Hfit. pose proof (reachable_consistent _ Hreach) as Hc.
  destruct (remove_quantity_cases id 0 db Hc)
    as [[Hnone _] | [(name & c & _ & _ & ? & ? & _) | [(name & c & Hh' & _ & _ & _ & _ & ->)
       | (name & c & Hh' & _ & Hpos & _ & Hacc & _)]]];
    [congruence | lia | |].
  - eexists. f_equal. destruct db as [cnt dir recs]. cbn in *. f_equal.
    apply insert_id. rewrite Hh'. by replace (c - 0) with c by lia.
  - exfalso. apply Hacc. rewrite Hh' in Hh. injection Hh as <-.
    unfold hincrby_accepts, in_int64, int64_min, int64_max in *.
    cbn [hf_quantity default from_option Datatypes.id] in *. lia.
Qed.

Lemma remove_quantity_zero_is_noop_witness :
  reachable (run [POST_items "apple" 5] empty_db) ∧
  item_id_hash (run [POST_items "apple" 5] empty_db) !! 1
    = Some (ItemHash (Some 1) (Some "apple") (Some 5)) ∧
  default 0 (hf_quantity (ItemHash (Some 1) (Some "apple") (Some 5))) ≤ int64_max ∧
  ∃ msg, remove_quantity 1 0 (run [POST_items "apple" 5] empty_db)
           = (inr msg, run [POST_items "apple" 5] empty_db).
Proof.
  split; [apply (reachable_run [POST_items "apple" 5] empty_db reachable_empty)|].
  split; [reflexivity|]. split; [vm_compute; discriminate|].
  apply (remove_quantity_zero_is_noop 1 (ItemHash (Some 1) (Some "apple") (Some 5))
           (run [POST_items "apple" 5] empty_db)).
  - apply (reachable_run [POST_items "apple" 5] empty_db reachable_empty).
  - reflexivity.
  - vm_compute; discriminate.
Defined.

(** X10: in a reachable store, adding a quantity q above 0 to a name that
    is already stored, the sum staying at most 2^63 - 1, and then removing
    q from its id brings back exactly the store one started from. *)
Theorem add_then_remove_restores name q id db :
  reachable db → 0 < q → item_name_to_id db !! name = Some id →
  default 0 (name_quantity db name) + q ≤ int64_max →
  ∃ p db1 msg,
    add_item name q db = (inr p, db1) ∧ item_id p = id ∧
    remove_quantity id q db1 = (inr msg, db).
Proof.
  intros Hreach Hq Hname Hfit. pose proof (reachable_consistent _ Hreach) as Hc.
  destruct (consistent_name_quantity _ _ _ Hc Hname) as (c0 & _ & Hnq & _).
  rewrite Hnq in Hfit. cbn [default from_option Datatypes.id] in Hfit.
  destruct (add_item_cases name q db Hc)
    as [[? _] | [(_ & id' & c & Hname' & Hh & Hpos & _ & Hadd) | [(_ & ? & _)
       | (_ & id' & c & Hname' & Hh & _ & Hover & _)]]];
    [lia | | congruence |].
  - assert (id' = id) as -> by congruence.
    assert (c0 = c) as ->.
    { unfold name_quantity, stored_quantity in Hnq. rewrite Hname in Hnq.
      cbn [mbind option_bind] in Hnq. rewrite Hh in Hnq. by injection Hnq. }
    eexists _, _, _. split; [exact Hadd|]. split; [done|].
    rewrite (remove_quantity_some id q (ItemHash (Some id) (Some name) (Some (c + q))));
      [| cbn; apply lookup_insert_eq | by eexists | simpl; lia | ].
    + cbn [hf_item_id hf_item_name hf_quantity default from_option Datatypes.id fmt_name
           item_ids item_name_to_id item_id_hash].
      f_equal. destruct db as [cnt dir recs]. cbn in *. f_equal.
      rewrite insert_insert_eq. apply insert_id. rewrite Hh.
      by replace (c + q - q) with c by lia.
    + unfold hincrby_accepts, in_int64, int64_min, int64_max in *.
      cbn [hf_quantity default from_option Datatypes.id]. lia.
  - exfalso. assert (id' = id) as -> by congruence.
    unfold name_quantity, stored_quantity in Hnq. rewrite Hname in Hnq.
    cbn [mbind option_bind] in Hnq. rewrite Hh in Hnq. injection Hnq as <-. lia.
Qed.

Lemma add_then_remove_restores_witness :
  reachable (run [POST_items "apple" 5] empty_db) ∧ 0 < 3 ∧
  item_name_to_id (run [POST_items "apple" 5] empty_db) !! "apple" = Some 1 ∧
  default 0 (name_quantity (run [POST_items "apple" 5] empty_db) "apple") + 3 ≤ int64_max ∧
  ∃ p db1 msg,
    add_item "apple" 3 (run [POST_items "apple" 5] empty_db) = (inr p, db1) ∧
    item_id p = 1 ∧
    remove_quantity 1 3 db1 = (inr msg, run [POST_items "apple" 5] empty_db).
Proof.
  split; [apply (reachable_run [POST_items "apple" 5] empty_db reachable_empty)|].
  split; [lia|]. split; [reflexivity|]. split; [vm_compute; discriminate|].
  apply (add_then_remove_restores "apple" 3 1 (run [POST_items "apple" 5] empty_db)).
  - apply (reachable_run [POST_items "apple" 5] empty_db reachable_empty).
  - lia.
  - reflexivity.
  - vm_compute; discriminate.
Defined.

(** X11: in a reachable store, adding a quantity q above 0 under a name
    that is not stored and then removing at least q from the id of the
    answer deletes the item again: the directory and the records are back
    to what they were, and only the counter has moved on, by one. *)
Theorem add_new_then_remove_keeps_counter name q amount db :
  reachable db → 0 < q → q ≤ amount → item_name_to_id db !! name = None →
  ∃ p db1 msg,
    add_item name q db = (inr p, db1) ∧ item_id p = item_ids db + 1 ∧
    remove_quantity (item_id p) amount db1 =
      (inr msg, Redis (item_ids db + 1) (item_name_to_id db) (item_id_hash db)).
Proof.
  intros Hreach Hq Hamount Hname. pose proof (reachable_consistent _ Hreach) as Hc.
  assert (item_id_hash db !! (item_ids db + 1) = None) as Hfresh.
  { destruct (item_id_hash db !! (item_ids db + 1)) as [h|] eqn:Hh; [exfalso|done].
    destruct (consistent_lookup _ _ _ Hc Hh) as (_ & _ & _ & _ & _ & Hle). lia. }
  rewrite add_item_new by done.
  eexists _, _, _. split; [done|]. split; [done|]. cbn [item_id].
  rewrite (remove_quantity_all _ amount (ItemHash (Some (item_ids db + 1)) (Some name) (Some q)));
    [| cbn; apply lookup_insert_eq | by eexists | simpl; lia ].
  cbn [hf_item_name fmt_name item_ids item_name_to_id item_id_hash].
  by rewrite !delete_insert_id.
Qed.

Lemma add_new_then_remove_keeps_counter_witness :
  reachable (run [POST_items "apple" 5] empty_db) ∧ 0 < 2 ∧ 2 ≤ 2 ∧
  item_name_to_id (run [POST_items "apple" 5] empty_db) !! "pear" = None ∧
  ∃ p db1 msg,
    add_item "pear" 2 (run [POST_items "apple" 5] empty_db) = (inr p, db1) ∧
    item_id p = item_ids (run [POST_items "apple" 5] empty_db) + 1 ∧
    remove_quantity (item_id p) 2 db1 =
      (inr msg, Redis (item_ids (run [POST_items "apple" 5] empty_db) + 1)
                      (item_name_to_id (run [POST_items "apple" 5] empty_db))
                      (item_id_hash (run [POST_items "apple" 5] empty_db))).
Proof.
  split; [apply (reachable_run [POST_items "apple" 5] empty_db reachable_empty)|].
  split; [lia|]. split; [lia|]. split; [reflexivity|].
  apply (add_new_then_remove_keeps_counter "pear" 2 2 (run [POST_items "apple" 5] empty_db)).
  - apply (reachable_run [POST_items "apple" 5] empty_db reachable_empty).
  - lia.
  - lia.
  - reflexivity.
Defined.

(** ** Deleting and adding again *)

(** X12: in a reachable store, once an item is deleted, adding its name
    again does not revive the old record: the name gets a new id, above
    the old one and above every id issued so far, and the new record
    starts from the quantity of the request. *)
Theorem add_after_delete_is_a_new_item id name c q db :
  reachable db → 0 < q →
  item_id_hash db !! id = Some (ItemHash (Some id) (Some name) (Some c)) →
  ∃ msg db1 p db2,
    delete_item id db = (inr msg, db1) ∧
    add_item name q db1 = (inr p, db2) ∧
    item_id p = item_ids db + 1 ∧ id < item_id p ∧
    item_id_hash db2 !! id = None ∧
    item_name_to_id db2 !! name = Some (item_id p) ∧
    item_id_hash db2 !! item_id p = Some (ItemHash (Some (item_id p)) (Some name) (Some q)).
Proof.
  intros Hreach Hq Hh. pose proof (reachable_consistent _ Hreach) as Hc.
  destruct (consistent_lookup _ _ _ Hc Hh) as (_ & _ & _ & _ & _ & Hle).
  set (db1 := Redis (item_ids db) (delete name (item_name_to_id db))
                    (delete id (item_id_hash db))).
  exists ("Item (" +:+ pretty id +:+ ", " +:+ name +:+ ") deleted."), db1.
  eexists (mkItemPayload (item_ids db + 1) name q), _.
  split; [by rewrite (delete_item_present id _ db Hh) by by eexists|].
  split; [apply (add_item_new name q db1); [done | apply lookup_delete_eq]|].
  cbn [item_id item_ids item_name_to_id item_id_hash db1]. split; [done|]. split; [lia|].
  split; [|split].
  - rewrite lookup_insert_ne by lia. apply lookup_delete_eq.
  - apply lookup_insert_eq.
  - apply lookup_insert_eq.
Qed.

Lemma add_after_delete_is_a_new_item_witness :
  reachable (run [POST_items "apple" 5] empty_db) ∧ 0 < 2 ∧
  item_id_hash (run [POST_items "apple" 5] empty_db) !! 1
    = Some (ItemHash (Some 1) (Some "apple") (Some 5)) ∧
  ∃ msg db1 p db2,
    delete_item 1 (run [POST_items "apple" 5] empty_db) = (inr msg, db1) ∧
    add_item "apple" 2 db1 = (inr p, db2) ∧
    item_id p = item_ids (run [POST_items "apple" 5] empty_db) + 1 ∧ 1 < item_id p ∧
    item_id_hash db2 !! 1 = None ∧
    item_name_to_id db2 !! "apple" = Some (item_id p) ∧
    item_id_hash db2 !! item_id p = Some (ItemHash (Some (item_id p)) (Some "apple") (Some 2)).
Proof.
  split; [apply (reachable_run [POST_items "apple" 5] empty_db reachable_empty)|].
  split; [lia|]. split; [reflexivity|].
  apply (add_after_delete_is_a_new_item 1 "apple" 5 2 (run [POST_items "apple" 5] empty_db)).
  - apply (reachable_run [POST_items "apple" 5] empty_db reachable_empty).
  - lia.
  - reflexivity.
Defined.

(** ** The counter and the ids it issues *)

(** A request either issues no id and leaves the counter, or issues the
    successor of the counter and stores it there. *)
Lemma newly_issued_counter r db :
  (newly_issued r db = [] ∧ item_ids (serve r db).2 = item_ids db) ∨
  (newly_issued r db = [item_ids db + 1] ∧ item_ids (serve r db).2 = item_ids db + 1).
Proof.
  rewrite serve_state. destruct r as [name q|id| |id|id q]; cbn [newly_issued].
  - destruct (item_name_to_id db !! name) as [id|] eqn:Hname.
    + left. split; [done|]. by apply (add_item_counter_existing name q id).
    + destruct (decide (q ≤ 0)); [left; by rewrite add_item_invalid|].
      right. by rewrite add_item_new by (done || lia).
  - by left.
  - by left.
  - left. split; [done|]. apply delete_item_counter.
  - left. split; [done|]. apply remove_quantity_counter.
Qed.

Lemma run_counter_mono rs db : item_ids db ≤ item_ids (run rs db).
Proof.
  revert db. induction rs as [|r rs IH]; intros db; [done|]. cbn [run].
  etrans; [apply (serve_counter_mono r)|apply IH].
Qed.

(** X13: the ids issued while any sequence of requests is served, from any
    store, are consecutive: they are exactly the integers from the old
    counter plus one up to the new counter, in that order, whatever was
    deleted in between. From the empty store they are 1, 2, ..., up to the
    counter. *)
Theorem issued_ids_are_consecutive rs db :
  issued_ids rs db = seqZ (item_ids db + 1) (item_ids (run rs db) - item_ids db) ∧
  item_ids (run rs db) = item_ids db + Z.of_nat (length (issued_ids rs db)) ∧
  issued_ids rs empty_db = seqZ 1 (item_ids (run rs empty_db)).
Proof.
  assert (∀ db0, issued_ids rs db0 =
                   seqZ (item_ids db0 + 1) (item_ids (run rs db0) - item_ids db0)) as Hseq.
  { induction rs as [|r rs IH]; intros db0.
    { cbn. by rewrite Z.sub_diag. }
    cbn [issued_ids run]. rewrite IH.
    pose proof (run_counter_mono rs (serve r db0).2) as Hmono.
    destruct (newly_issued_counter r db0) as [[-> Hcnt] | [-> Hcnt]]; rewrite Hcnt in *.
    - done.
    - cbn [app]. rewrite (seqZ_cons (item_ids db0 + 1)) by lia. do 2 f_equal; lia. }
  split; [apply Hseq|]. split.
  - rewrite Hseq, length_seqZ. pose proof (run_counter_mono rs db). lia.
  - rewrite Hseq. cbn [item_ids empty_db]. f_equal. lia.
Qed.

(** X15: in a reachable store, the id that add-item issues for a name that
    is not stored is not in use: no record sits at it and no name resolves
    to it; it is the value the counter holds afterwards. *)
Theorem add_item_issues_unused_id name q db :
  reachable db → 0 < q → item_name_to_id db !! name = None →
  ∃ p db',
    add_item name q db = (inr p, db') ∧
    item_id p = item_ids db' ∧
    item_id_hash db !! item_id p = None ∧
    (∀ name', item_name_to_id db !! name' ≠ Some (item_id p)).
Proof.
  intros Hreach Hq Hname. pose proof (reachable_consistent _ Hreach) as Hc.
  rewrite add_item_new by done. eexists _, _. split; [done|]. cbn [item_id item_ids].
  assert (item_id_hash db !! (item_ids db + 1) = None) as Hfresh.
  { destruct (item_id_hash db !! (item_ids db + 1)) as [h|] eqn:Hh; [exfalso|done].
    destruct (consistent_lookup _ _ _ Hc Hh) as (_ & _ & _ & _ & _ & Hle). lia. }
  split; [done|]. split; [done|]. intros name' Hname'.
  destruct (consistent_resolve _ _ _ Hc Hname') as (c & Hh & _). congruence.
Qed.

Lemma add_item_issues_unused_id_witness :
  reachable (run [POST_items "apple" 5; POST_items "pear" 2; DELETE_item 2] empty_db) ∧
  0 < 4 ∧
  item_name_to_id (run [POST_items "apple" 5; POST_items "pear" 2; DELETE_item 2] empty_db)
    !! "pear" = None ∧
  ∃ p db',
    add_item "pear" 4 (run [POST_items "apple" 5; POST_items "pear" 2; DELETE_item 2] empty_db)
      = (inr p, db') ∧
    item_id p = item_ids db' ∧
    item_id_hash (run [POST_items "apple" 5; POST_items "pear" 2; DELETE_item 2] empty_db)
      !! item_id p = None ∧
    (∀ name',
       item_name_to_id (run [POST_items "apple" 5; POST_items "pear" 2; DELETE_item 2] empty_db)
         !! name' ≠ Some (item_id p)).
Proof.
  split; [apply (reachable_run [POST_items "apple" 5; POST_items "pear" 2; DELETE_item 2]
                   empty_db reachable_empty)|].
  split; [lia|]. split; [reflexivity|].
  apply (add_item_issues_unused_id "pear" 4
           (run [POST_items "apple" 5; POST_items "pear" 2; DELETE_item 2] empty_db)).
  - apply (reachable_run [POST_items "apple" 5; POST_items "pear" 2; DELETE_item 2]
             empty_db reachable_empty).
  - lia.
  - reflexivity.
Defined.

(** ** A store whose directory and records are out of step *)

(** X14: when the directory resolves a name to an id that has no record,
    add-item with a quantity above 0 and at most 2^63 - 1 still succeeds
    with that id; its increment creates a hash that holds the quantity and
    nothing else, so get-item on the id still answers 404 and list-items
    reports no item with that id. *)
Theorem add_item_on_dangling_name name q id db :
  0 < q → q ≤ int64_max →
  item_name_to_id db !! name = Some id → item_id_hash db !! id = None →
  ∃ db' items,
    add_item name q db = (inr (mkItemPayload id name q), db') ∧
    item_id_hash db' !! id = Some (ItemHash None None (Some q)) ∧
    list_item id db' = (inl (mkHTTPException 404 "Item not found."), db') ∧
    list_items db' = (inr items, db') ∧
    ∀ p, p ∈ items → item_id p ≠ id.
Proof.
  intros Hq Hmax Hname Hnone. rewrite (add_item_existing name q id); [|done|done|].
  2:{ rewrite Hnone. unfold hincrby_accepts, in_int64, int64_min, int64_max in *.
      cbn [mbind option_bind default from_option Datatypes.id]. lia. }
  rewrite Hnone. cbn [mbind option_bind default from_option Datatypes.id].
  eexists _, _. split; [done|]. cbn [item_id_hash].
  assert (<[id:=ItemHash None None (Some (0 + q))]> (item_id_hash db) !! id
          = Some (ItemHash None None (Some q))) as Hh by apply lookup_insert_eq.
  split; [done|]. split; [by apply (list_item_no_item_id id (ItemHash None None (Some q)))|].
  split; [apply list_items_spec|].
  intros p Hp Hid. apply list_elem_of_omap in Hp as ([name' id'] & _ & Hentry).
  unfold spec_list_entry in Hentry. cbn [snd item_id_hash] in Hentry.
  destruct (_ !! id' ≫= hf_item_name) as [nm|] eqn:Hnm; [|done].
  injection Hentry as <-. cbn [item_id] in Hid. subst id'. by rewrite Hh in Hnm.
Qed.

Lemma add_item_on_dangling_name_witness :
  0 < 3 ∧ 3 ≤ int64_max ∧
  item_name_to_id (Redis 1 {["apple" := 1]} ∅) !! "apple" = Some 1 ∧
  item_id_hash (Redis 1 {["apple" := 1]} ∅) !! 1 = None ∧
  ∃ db' items,
    add_item "apple" 3 (Redis 1 {["apple" := 1]} ∅) = (inr (mkItemPayload 1 "apple" 3), db') ∧
    item_id_hash db' !! 1 = Some (ItemHash None None (Some 3)) ∧
    list_item 1 db' = (inl (mkHTTPException 404 "Item not found."), db') ∧
    list_items db' = (inr items, db') ∧
    ∀ p, p ∈ items → item_id p ≠ 1.
Proof.
  split; [lia|]. split; [vm_compute; discriminate|].
  split; [reflexivity|]. split; [reflexivity|].
  apply (add_item_on_dangling_name "apple" 3 1 (Redis 1 {["apple" := 1]} ∅)).
  - lia.
  - vm_compute; discriminate.
  - reflexivity.
  - reflexivity.
Defined.

(** ** Deleting twice *)

(** X16: whatever the store holds, once delete-item on an id has
    succeeded, a second delete-item and a remove-quantity on the same id
    both answer 404 and change nothing. *)
Theorem delete_item_is_not_repeatable id q msg db db' :
  delete_item id db = (inr msg, db') →
  delete_item id db' = (inl (mkHTTPException 404 "Item not found."), db') ∧
  remove_quantity id q db' = (inl (mkHTTPException 404 "Item not found."), db').
Proof.
  intros Hdel.
  assert (item_id_hash db' !! id = None) as Hgone.
  { destruct (item_id_hash db !! id) as [h|] eqn:Hh;
      [|by rewrite delete_item_absent in Hdel].
    destruct (hf_item_id h) as [i|] eqn:Hi;
      [|by rewrite (delete_item_no_item_id id h) in Hdel].
    rewrite (delete_item_present id h) in Hdel by (done || by rewrite Hi).
    injection Hdel as _ <-. apply lookup_delete_eq. }
  split; [by apply delete_item_absent | by apply remove_quantity_absent].
Qed.

Lemma delete_item_is_not_repeatable_witness :
  delete_item 1 (run [POST_items "apple" 5] empty_db)
    = (inr "Item (1, apple) deleted.", Redis 1 ∅ ∅) ∧
  delete_item 1 (Redis 1 ∅ ∅) = (inl (mkHTTPException 404 "Item not found."), Redis 1 ∅ ∅) ∧
  remove_quantity 1 2 (Redis 1 ∅ ∅) = (inl (mkHTTPException 404 "Item not found."), Redis 1 ∅ ∅).
Proof.
  split; [reflexivity|].
  apply (delete_item_is_not_repeatable 1 2 "Item (1, apple) deleted."
           (run [POST_items "apple" 5] empty_db) (Redis 1 ∅ ∅)).
  reflexivity.
Defined.

(** ** remove-quantity on a reachable store *)

(** X17: in a reachable store, remove-quantity answers 404 exactly when the
    id has no record. On a record with quantity c: when the amount is at
    least c the record is dropped and the message is the deletion
    message; when the amount is below c and the store accepts the
    decrement, the record survives and the message gives the amount, the
    quantity before, the id and the name; when the store refuses the
    decrement the request is answered with 500 and nothing changes. The
    record is gone afterwards exactly when the amount is at least c. *)
Theorem remove_quantity_outcomes id q db :
  reachable db →
  (status (remove_quantity id q db).1 = 404 ↔ item_id_hash db !! id = None) ∧
  (∀ name c, item_id_hash db !! id = Some (ItemHash (Some id) (Some name) (Some c)) →
     (is_Some (item_id_hash (remove_quantity id q db).2 !! id) ↔ q < c) ∧
     (c ≤ q →
      ∃ db', remove_quantity id q db =
               (inr ("Item (" +:+ pretty id +:+ ", " +:+ name +:+ ") deleted."), db')) ∧
     (q < c → hincrby_accepts (Some c) (- q) →
      ∃ db', remove_quantity id q db =
               (inr (pretty q +:+ " of " +:+ pretty c +:+ " items from ("
                     +:+ pretty id +:+ ", " +:+ name +:+ ") removed."), db') ∧
             stored_quantity db' id = Some (c - q)) ∧
     (q < c → ¬ hincrby_accepts (Some c) (- q) →
      remove_quantity id q db = (inl internal_server_error, db))).
Proof.
  intros Hreach. pose proof (reachable_consistent _ Hreach) as Hc.
  destruct (remove_quantity_cases id q db Hc)
    as [[Hnone ->] | [(name & c & Hh & _ & _ & Hle & ->)
       | [(name & c & Hh & _ & _ & Hlt & Hacc & ->)
       | (name & c & Hh & _ & _ & Hlt & Hacc & ->)]]].
  - split; [done|]. intros name c Hh. congruence.
  - split; [cbn; rewrite Hh; split; [lia|done]|].
    intros name' c' [= <- <-]%(eq_trans (eq_sym Hh)).
    cbn [snd item_id_hash]. rewrite lookup_delete_eq.
    split; [split; [by intros [??]|lia]|].
    split; [intros _; by eexists|]. split; intros; lia.
  - split; [cbn; rewrite Hh; split; [lia|done]|].
    intros name' c' [= <- <-]%(eq_trans (eq_sym Hh)).
    cbn [snd item_id_hash]. rewrite lookup_insert_eq.
    split; [split; [done|by eexists]|].
    split; [intros; lia|]. split; [|done].
    intros _ _. eexists. split; [done|]. unfold stored_quantity. cbn [item_id_hash].
    by rewrite lookup_insert_eq.
  - split; [cbn; rewrite Hh; split; [lia|done]|].
    intros name' c' [= <- <-]%(eq_trans (eq_sym Hh)).
    cbn [snd]. rewrite Hh.
    split; [split; [done|by eexists]|].
    split; [intros; lia|]. split; [done|]. done.
Qed.

Lemma remove_quantity_outcomes_witness :
  reachable (run [POST_items "apple" 5] empty_db) ∧
  (status (remove_quantity 1 2 (run [POST_items "apple" 5] empty_db)).1 = 404 ↔
   item_id_hash (run [POST_items "apple" 5] empty_db) !! 1 = None) ∧
  (∀ name c,
     item_id_hash (run [POST_items "apple" 5] empty_db) !! 1
       = Some (ItemHash (Some 1) (Some name) (Some c)) →
     (is_Some (item_id_hash
                 (remove_quantity 1 2 (run [POST_items "apple" 5] empty_db)).2 !! 1) ↔ 2 < c) ∧
     (c ≤ 2 →
      ∃ db', remove_quantity 1 2 (run [POST_items "apple" 5] empty_db) =
               (inr ("Item (" +:+ pretty 1 +:+ ", " +:+ name +:+ ") deleted."), db')) ∧
     (2 < c → hincrby_accepts (Some c) (- 2) →
      ∃ db', remove_quantity 1 2 (run [POST_items "apple" 5] empty_db) =
               (inr (pretty 2 +:+ " of " +:+ pretty c +:+ " items from ("
                     +:+ pretty 1 +:+ ", " +:+ name +:+ ") removed."), db') ∧
             stored_quantity db' 1 = Some (c - 2)) ∧
     (2 < c → ¬ hincrby_accepts (Some c) (- 2) →
      remove_quantity 1 2 (run [POST_items "apple" 5] empty_db)
        = (inl internal_server_error, run [POST_items "apple" 5] empty_db))).
Proof.
  split; [apply (reachable_run [POST_items "apple" 5] empty_db reachable_empty)|].
  apply (remove_quantity_outcomes 1 2 (run [POST_items "apple" 5] empty_db)).
  apply (reachable_run [POST_items "apple" 5] empty_db reachable_empty).
Defined.

(** ** Adding many times under one name *)

(** X18: in a reachable store, serving any number of add-item requests for
    one name, each with a quantity above 0, such that what was stored for
    the name (0 if nothing) plus the sum of the quantities is at most
    2^63 - 1, adds the sum of the quantities to what was stored for the
    name; after at least one request the name has a stored quantity. *)
Theorem add_item_accumulates name qs db :
  reachable db →
  Forall (λ q, 0 < q) qs →
  default 0 (name_quantity db name) + foldr Z.add 0 qs ≤ int64_max →
  default 0 (name_quantity (run (POST_items name <$> qs) db) name) =
    default 0 (name_quantity db name) + foldr Z.add 0 qs ∧
  (qs ≠ [] → is_Some (name_quantity (run (POST_items name <$> qs) db) name)).
Proof.
  intros Hreach Hqs. revert db Hreach. induction Hqs as [|q qs Hq Hqs IH]; intros db Hreach Hfit.
  { split; [cbn; lia|done]. }
  cbn [fmap list_fmap run foldr] in *.
  assert (0 ≤ foldr Z.add 0 qs) as Hsum.
  { clear -Hqs. induction Hqs; cbn; lia. }
  pose proof (reachable_consistent _ Hreach) as Hc.
  destruct (add_item_valid name q db Hq) as (p & db1 & Hadd & _ & _ & _ & _ & Hst).
  { apply (add_item_accepted name q db Hc Hq). right. lia. }
  assert ((serve (POST_items name q) db).2 = db1) as Hserve
    by by rewrite serve_state, Hadd.
  assert (reachable db1) as Hreach1 by (rewrite <- Hserve; by constructor).
  rewrite Hserve. destruct (IH db1 Hreach1) as [IHsum IHsome].
  { rewrite Hst. cbn [default from_option Datatypes.id]. lia. }
  split.
  - rewrite IHsum, Hst. cbn [default from_option Datatypes.id]. lia.
  - intros _. destruct qs as [|q' qs']; [cbn [fmap list_fmap run]; by rewrite Hst|].
    by apply IHsome.
Qed.

Lemma add_item_accumulates_witness :
  reachable empty_db ∧
  Forall (λ q, 0 < q) [5; 3; 4] ∧
  default 0 (name_quantity empty_db "apple") + foldr Z.add 0 [5; 3; 4] ≤ int64_max ∧
  default 0 (name_quantity (run (POST_items "apple" <$> [5; 3; 4]) empty_db) "apple") =
    default 0 (name_quantity empty_db "apple") + foldr Z.add 0 [5; 3; 4] ∧
  ([5; 3; 4] ≠ [] →
   is_Some (name_quantity (run (POST_items "apple" <$> [5; 3; 4]) empty_db) "apple")).
Proof.
  split; [apply reachable_empty|]. split; [repeat constructor|].
  split; [vm_compute; discriminate|].
  apply (add_item_accumulates "apple" [5; 3; 4] empty_db).
  - apply reachable_empty.
  - repeat constructor.
  - vm_compute; discriminate.
Defined.
